(** * NestedDict: a dot-path hierarchy with a per-node flat index

    Shallow embedding of [extended_containers/nested_dict.py].

    A [NestedDict] is a Python object: it has an identity, it is mutated in
    place, and it refers back to its parent.  The embedding therefore keeps
    the objects in a store indexed by address; every method takes the store
    and the address of [self] and returns the new store (and its result).

    - The dictionary a [NestedDict] inherits from and its [__chainmap__]
      are finite maps from strings; the order of insertion, which no method
      reads, is not kept.
    - Objects are never freed: a node that [delete_key], [clear] or an
      overwriting [set] detaches stays in the store, as it stays alive in
      Python for whoever holds a reference to it.
    - Leaves are objects too; [T] is the type of their identities, and the
      store keeps the [parent] slot that [set] writes.
    - An exception is a value returned beside the store, so that what was
      mutated before it was raised is visible.
    - The methods recurse on what follows the first dot of the key; the
      embedding gives them the length of the key as fuel, which is never
      used up ([recursion_bounded_by_key]).
    - A [NestedDict] is created empty, as [set] creates it; the positional
      and keyword arguments that [__init__] passes on to [dict] are not
      modelled.

    The other containers of the package, [AliasDict], [ReversibleMap],
    [TypedList], [DefaultDict] and [Dispatcher], hold no references between
    objects; each is embedded as a value, in a module of its own after the
    development of [NestedDict]. *)

From Stdlib Require Import Ascii.
From stdpp Require Import base option list gmap strings.

Open Scope string_scope.
Open Scope nat_scope.

(** ** Strings as Python uses them *)

(** [s.partition(sep)] for a one-character separator: the text before the
    first separator, the separator (empty when absent), the text after. *)
Fixpoint partition (s : string) (sep : ascii) : string * string * string :=
  match s with
  | EmptyString => (EmptyString, EmptyString, EmptyString)
  | String c s' =>
      if Ascii.eqb c sep then (EmptyString, String sep EmptyString, s')
      else let '(h, m, t) := partition s' sep in (String c h, m, t)
  end.

(** [k.startswith(key)] *)
Definition startswith (k key : string) : bool := String.prefix key k.

(** Truth value of a string: empty strings are falsy. *)
Definition truthy (s : string) : bool :=
  match s with EmptyString => false | String _ _ => true end.

(** The separator of composite keys. *)
Definition dot : ascii := "."%char.

(** A composite key is one or more non-empty segments joined by the
    separator.  [seen] tells whether the segment being read has a character. *)
Fixpoint composite_from (seen : bool) (k : string) : bool :=
  match k with
  | EmptyString => seen
  | String c k' =>
      if Ascii.eqb c dot then seen && composite_from false k'
      else composite_from true k'
  end.

Definition composite (k : string) : bool := composite_from false k.

(** [extends k pre]: [k] is [pre] followed by the end of the string or by a
    separator, that is, [k] is [pre] or continues it at a segment boundary. *)
Fixpoint extends (k pre : string) : bool :=
  match pre, k with
  | EmptyString, EmptyString => true
  | EmptyString, String c _ => Ascii.eqb c dot
  | String a pre', String c k' => Ascii.eqb a c && extends k' pre'
  | String _ _, EmptyString => false
  end.

(** ** Objects and the store *)

(** Identity of a [NestedDict] instance. *)
Definition addr := nat.

(** Error raised by a method. *)
Inductive exn :=
| KeyError (k : string)
| AttributeError.

Section NestedDict.

(** [T] is the type of leaf objects.  Leaves carry a mutable [parent] slot
    ([HasNDParent]); it lives in the store under the leaf's identity. *)
Context {T : Type} `{EqDecision T}.

(** A dictionary slot holds either another [NestedDict] or a leaf; this is
    what [isinstance(x, NestedDict)] discriminates. *)
Inductive Child :=
| Branch (a : addr)
| Leaf (v : T).

Record NestedDict := mkNestedDict {
  parent : option addr;
  _key : option string;
  chainmap : gmap string T;      (* [__chainmap__] *)
  items : gmap string Child      (* the entries of the underlying [dict] *)
}.

Record store := mkStore {
  objs : list NestedDict;        (* the [NestedDict] instances, by address *)
  owner : T -> option addr       (* the [parent] slot of each leaf object *)
}.

(** [NestedDict(parent=p, key=k)] *)
Definition NestedDict_init (p : option addr) (k : option string) : NestedDict :=
  mkNestedDict p k ∅ ∅.

Definition node (s : store) (a : addr) : NestedDict :=
  default (NestedDict_init None None) (objs s !! a).

Definition update (s : store) (a : addr) (f : NestedDict -> NestedDict) : store :=
  mkStore (<[a := f (node s a)]> (objs s)) (owner s).

(** Allocation of a new instance: its address is the next free one. *)
Definition alloc (s : store) (n : NestedDict) : store * addr :=
  (mkStore (objs s ++ [n])%list (owner s), length (objs s)).

(** [self.__chainmap__[key] = value] *)
Definition chainmap_setitem (s : store) (self : addr) (key : string) (value : T) : store :=
  update s self (fun n => mkNestedDict (parent n) (_key n) (<[key := value]> (chainmap n)) (items n)).

(** [del self.__chainmap__[key]] *)
Definition chainmap_delitem (s : store) (self : addr) (key : string) : store :=
  update s self (fun n => mkNestedDict (parent n) (_key n) (delete key (chainmap n)) (items n)).

(** [self[key] = c] *)
Definition setitem (s : store) (self : addr) (key : string) (c : Child) : store :=
  update s self (fun n => mkNestedDict (parent n) (_key n) (chainmap n) (<[key := c]> (items n))).

(** [del self[key]] on a key that is present *)
Definition delitem (s : store) (self : addr) (key : string) : store :=
  update s self (fun n => mkNestedDict (parent n) (_key n) (chainmap n) (delete key (items n))).

(** [value.parent = self] *)
Definition set_owner (s : store) (value : T) (self : addr) : store :=
  mkStore (objs s) (fun x => if decide (x = value) then Some self else owner s x).

(** ** Methods *)

(** [get]: recursion is on the remainder of the key after its first dot,
    which is strictly shorter than the key; [fuel] bounds the depth. *)
Fixpoint get_rec (fuel : nat) (s : store) (self : addr) (key : string)
    (default : option Child) : option Child :=
  let '(self_key, _, node_key) := partition key dot in
  let branch :=
    match items (node s self) !! self_key with
    | Some c => Some c
    | None => default
    end in
  if negb (truthy node_key) then branch
  else
    match branch with
    | Some (Branch b) =>
        match fuel with
        | O => None
        | S fuel' => get_rec fuel' s b node_key default
        end
    | _ => default
    end.

Definition get (s : store) (self : addr) (key : string) (default : option Child) : option Child :=
  get_rec (String.length key) s self key default.

(** [set] *)
Fixpoint set_rec (fuel : nat) (s : store) (self : addr) (key : string) (value : T) : store :=
  let s := chainmap_setitem s self key value in
  let '(self_key, _, node_key) := partition key dot in
  if truthy node_key then
    match fuel with
    | O => s
    | S fuel' =>
        let '(s, next_branch) :=
          match get s self self_key None with
          | Some (Branch b) => (s, b)
          | _ => alloc s (NestedDict_init (Some self) (Some self_key))
          end in
        let s := setitem s self self_key (Branch next_branch) in
        set_rec fuel' s next_branch node_key value
    end
  else
    let s := set_owner s value self in
    setitem s self self_key (Leaf value).

Definition set (s : store) (self : addr) (key : string) (value : T) : store :=
  set_rec (String.length key) s self key value.

(** What [set] does at [self] before it calls itself on the next branch:
    the store it passes on, and the branch. *)
Definition descend (s : store) (a : addr) (k h : string) (v : T) : store * addr :=
  let s1 := chainmap_setitem s a k v in
  let '(s2, next_branch) :=
    match items (node s1 a) !! h with
    | Some (Branch b) => (s1, b)
    | _ => alloc s1 (NestedDict_init (Some a) (Some h))
    end in
  (setitem s2 a h (Branch next_branch), next_branch).

(** [get_leaf]: [inr v] is the value, [inl] the error raised. *)
Definition get_leaf (s : store) (self : addr) (key : string) : exn + T :=
  match chainmap (node s self) !! key with
  | Some v => inr v
  | None => inl (KeyError key)
  end.

(** [__contains__] as the package defines it: a walk over the tree. *)
Fixpoint contains_rec (fuel : nat) (s : store) (self : addr) (key : string) : bool :=
  let '(self_key, _, node_key) := partition key dot in
  match items (node s self) !! self_key with
  | Some branch =>
      if negb (truthy node_key) then true
      else
        match branch with
        | Branch b =>
            match fuel with
            | O => false
            | S fuel' => contains_rec fuel' s b node_key
            end
        | Leaf _ => false
        end
  | None => false
  end.

Definition contains (s : store) (self : addr) (key : string) : bool :=
  contains_rec (String.length key) s self key.

(** [__contains__] as the copy of the class in the test module defines it:
    membership in the flat index. *)
Definition contains_chainmap (s : store) (self : addr) (key : string) : bool :=
  bool_decide (is_Some (chainmap (node s self) !! key)).

(** [delete_key]: the store is returned together with the error raised, if
    any; what was mutated before the error stays mutated. *)
Definition leaf_keys_to_delete (n : NestedDict) (key : string) : list string :=
  filter (fun k => startswith k key = true) (map_to_list (chainmap n)).*1.

(** The loop [for leaf_key in leaf_keys_to_delete: del self.__chainmap__[leaf_key]] *)
Definition delete_leaf_keys (s : store) (self : addr) (key : string) : store :=
  foldr (fun leaf_key s => chainmap_delitem s self leaf_key) s
    (leaf_keys_to_delete (node s self) key).

Fixpoint delete_key_rec (fuel : nat) (s : store) (self : addr) (key : string)
    : store * option exn :=
  let s := delete_leaf_keys s self key in
  let '(self_key, _, node_key) := partition key dot in
  match items (node s self) !! self_key with
  | None => (s, Some (KeyError self_key))
  | Some c =>
      if negb (truthy node_key) then (delitem s self self_key, None)
      else
        match c with
        | Leaf _ => (s, Some AttributeError)
        | Branch sub_node =>
            match fuel with
            | O => (s, None)
            | S fuel' => delete_key_rec fuel' s sub_node node_key
            end
        end
  end.

Definition delete_key (s : store) (self : addr) (key : string) : store * option exn :=
  delete_key_rec (String.length key) s self key.

(** [clear] *)
Definition clear (s : store) (self : addr) : store :=
  update s self (fun n => mkNestedDict (parent n) (_key n) ∅ ∅).

(** The [key] property.  A dictionary is truthy when it has entries; an
    absent [_key] is formatted as the text [None].  The walk up the parent
    links may fail to end on a store with a cycle of parents: [None]. *)
Definition format_key (k : option string) : string :=
  match k with Some k => k | None => "None" end.

Fixpoint key_rec (fuel : nat) (s : store) (self : addr) : option string :=
  match fuel with
  | O => None
  | S fuel' =>
      let n := node s self in
      let own := Some (default "" (_key n)) in
      match parent n with
      | Some p =>
          if bool_decide (items (node s p) = ∅) then own
          else
            match key_rec fuel' s p with
            | None => None
            | Some pk =>
                if truthy pk then Some (pk ++ "." ++ format_key (_key n))
                else own
            end
      | None => own
      end
  end.

Definition key (s : store) (self : addr) : option string :=
  key_rec (length (objs s)) s self.

(** ** A root in an empty store: [root = NestedDict()] *)

Definition root : addr := 0.

Definition init : store :=
  mkStore [NestedDict_init None None] (fun _ => None).


(** ** Vocabulary of the properties *)


(** A store is well formed when the parent links mirror the child links:
    a node held in slot [seg] of [a] was created by [a] for that slot
    ([parent = a], [_key = seg]), and a parent is older than its child.
    [set] creates nodes exactly so, and no method rewrites [parent] or
    [_key]; no node is then shared by two slots and no node is below itself. *)
Definition wf (s : store) : Prop :=
  ∀ a, a < length (objs s) →
    (∀ p, parent (node s a) = Some p → p < a) ∧
    (∀ seg b, items (node s a) !! seg = Some (Branch b) →
       b < length (objs s) ∧
       parent (node s b) = Some a ∧ _key (node s b) = Some seg).

(** The stores the methods build from an empty root, called on any
    [NestedDict] of the store. *)
Inductive built : store → Prop :=
| built_init : built init
| built_set s a k v : built s → a < length (objs s) → built (set s a k v)
| built_delete_key s a k :
    built s → a < length (objs s) → built (delete_key s a k).1
| built_clear s a : built s → a < length (objs s) → built (clear s a).

(** [anc s x a]: following parent links from [x] meets [a]. *)
Inductive anc (s : store) : addr → addr → Prop :=
| anc_refl a : anc s a a
| anc_step x p a : parent (node s x) = Some p → anc s p a → anc s x a.

(** Index completeness at and below [a]: every node whose parent chain
    meets [a] files, under its relative key, every leaf that a composite
    key resolves to from it. *)
Definition complete (s : store) (a : addr) : Prop :=
  ∀ x k v, x < length (objs s) → anc s x a → composite k = true →
    get s x k None = Some (Leaf v) → chainmap (node s x) !! k = Some v.

(** [bound s a k v]: walking [k] from [a] ends on the leaf [v], and every
    node on the walk maps what is left of [k] to [v] in its flat index. *)
Inductive bound (s : store) : addr → string → T → Prop :=
| bound_leaf a k h m t v :
    partition k dot = (h, m, t) → truthy t = false →
    chainmap (node s a) !! k = Some v →
    items (node s a) !! h = Some (Leaf v) →
    bound s a k v
| bound_branch a k h m t b v :
    partition k dot = (h, m, t) → truthy t = true →
    chainmap (node s a) !! k = Some v →
    items (node s a) !! h = Some (Branch b) →
    bound s b t v →
    bound s a k v.

(** [missing s a k seg]: walking [k] from [a] reaches a node whose
    dictionary has no entry for the segment [seg] the walk asks for. *)
Inductive missing (s : store) : addr → string → string → Prop :=
| missing_here a k h m t :
    partition k dot = (h, m, t) →
    items (node s a) !! h = None →
    missing s a k h
| missing_below a k h m t b seg :
    partition k dot = (h, m, t) → truthy t = true →
    items (node s a) !! h = Some (Branch b) →
    missing s b t seg →
    missing s a k seg.

(** [on_walk s a k b t]: walking [k] from [a] visits node [b] with [t] left
    of the key. *)
Inductive on_walk (s : store) : addr → string → addr → string → Prop :=
| on_walk_here a k : on_walk s a k a k
| on_walk_below a k h m t c b r :
    partition k dot = (h, m, t) → truthy t = true →
    items (node s a) !! h = Some (Branch c) →
    on_walk s c t b r →
    on_walk s a k b r.


(** ** Strings: what the methods rely on *)

Lemma partition_app (k h m t : string) :
  partition k dot = (h, m, t) → k = h ++ m ++ t.
Proof.
  revert h m t. induction k as [|c k IH]; simpl; intros h m t E.
  - by inversion E.
  - destruct (Ascii.eqb_spec c dot) as [->|Hc].
    + by inversion E.
    + destruct (partition k dot) as [[h' m'] t']. inversion E; subst.
      change (String c k = String c (h' ++ m ++ t)). f_equal. by apply IH.
Qed.

Lemma partition_length (k h m t : string) :
  partition k dot = (h, m, t) → truthy t = true →
  String.length t < String.length k.
Proof.
  revert h m t. induction k as [|c k IH]; simpl; intros h m t E Ht.
  - inversion E; subst. discriminate.
  - destruct (Ascii.eqb c dot).
    + inversion E; subst. lia.
    + destruct (partition k dot) as [[h' m'] t']. inversion E; subst.
      specialize (IH _ _ _ eq_refl Ht). lia.
Qed.

(** The head of a key has no separator in it. *)
Lemma partition_head (k h m t : string) :
  partition k dot = (h, m, t) → partition h dot = (h, "", "").
Proof.
  revert h m t. induction k as [|c k IH]; simpl; intros h m t E.
  - by inversion E.
  - destruct (Ascii.eqb c dot) eqn:Hc.
    + by inversion E.
    + destruct (partition k dot) as [[h' m'] t']. inversion E; subst.
      simpl. rewrite Hc. by rewrite (IH _ _ _ eq_refl).
Qed.

Lemma app_cons (c : ascii) (h t : string) : String c h ++ t = String c (h ++ t).
Proof. reflexivity. Qed.

Lemma app_nil_r (h : string) : h ++ "" = h.
Proof. induction h as [|c h IH]; [done|]. by rewrite app_cons, IH. Qed.

Lemma app_assoc (a b c : string) : (a ++ b) ++ c = a ++ (b ++ c).
Proof. induction a as [|x a IH]; [done|]. by rewrite !app_cons, IH. Qed.

Lemma truthy_app_l (a b : string) : truthy a = true → truthy (a ++ b) = true.
Proof. by destruct a. Qed.

Lemma composite_from_partition (seen : bool) (k h m t : string) :
  composite_from seen k = true → partition k dot = (h, m, t) →
  seen || truthy h = true ∧
  ((m = "" ∧ t = "") ∨ (m = "." ∧ composite t = true)).
Proof.
  revert seen h m t. induction k as [|c k IH]; simpl; intros seen h m t Hc E.
  - inversion E; subst. auto.
  - destruct (Ascii.eqb c dot).
    + apply andb_true_iff in Hc as [-> Hc]. inversion E; subst. auto.
    + destruct (partition k dot) as [[h' m'] t']. inversion E; subst.
      destruct (IH _ _ _ _ Hc eq_refl) as [_ Hr]. split; [|done].
      by rewrite orb_true_r.
Qed.

(** A composite key splits into a non-empty head and, after a separator, a
    composite key; or it is a single segment. *)
Lemma composite_partition (k h m t : string) :
  composite k = true → partition k dot = (h, m, t) →
  truthy h = true ∧
  ((truthy t = false ∧ k = h) ∨
   (truthy t = true ∧ composite t = true ∧ k = h ++ "." ++ t)).
Proof.
  intros Hc E. destruct (composite_from_partition _ _ _ _ _ Hc E) as [Hh Hr].
  split; [done|]. pose proof (partition_app _ _ _ _ E) as Hk.
  destruct Hr as [[-> ->]|[-> Ht]].
  - left. split; [done|]. by rewrite !app_nil_r in Hk.
  - right. split; [|done]. destruct t; [discriminate|done].
Qed.

Lemma extends_refl (k : string) : extends k k = true.
Proof.
  induction k as [|c k IH]; simpl; [done|]. by rewrite Ascii.eqb_refl, IH.
Qed.

Lemma extends_app (h t : string) : extends (h ++ "." ++ t) h = true.
Proof.
  induction h as [|c h IH]; [done|].
  rewrite (app_cons c h). simpl. by rewrite Ascii.eqb_refl, IH.
Qed.

Lemma extends_cancel (h t1 t2 : string) :
  extends (h ++ "." ++ t1) (h ++ "." ++ t2) = extends t1 t2.
Proof.
  induction h as [|c h IH]; [done|].
  rewrite !(app_cons c h). simpl. by rewrite Ascii.eqb_refl, IH.
Qed.

(** Induction along the walk of a key: from a key to what follows its
    first separator. *)
Lemma key_ind (P : string → Prop) :
  (∀ k, (∀ h m t, partition k dot = (h, m, t) → truthy t = true → P t) → P k) →
  ∀ k, P k.
Proof.
  intros step k.
  remember (String.length k) as n eqn:Hn.
  revert k Hn. induction n as [n IH] using lt_wf_ind. intros k ->.
  apply step. intros h m t E Ht. eapply IH; [|reflexivity].
  by eapply partition_length.
Qed.

(** ** The recursive methods do not run out of fuel *)

Lemma get_rec_fuel (f1 f2 : nat) (s : store) (a : addr) (k : string) (D : option Child) :
  String.length k ≤ f1 → String.length k ≤ f2 →
  get_rec f1 s a k D = get_rec f2 s a k D.
Proof.
  revert f2 s a k. induction f1 as [|f1 IH]; intros f2 s a k H1 H2;
    destruct f2 as [|f2]; simpl;
    destruct (partition k dot) as [[h m] t] eqn:E;
    destruct (truthy t) eqn:Ht; simpl; try reflexivity;
    pose proof (partition_length _ _ _ _ E Ht); try lia.
  destruct (items (node s a) !! h) as [[b|v]|]; try reflexivity.
  - apply IH; lia.
  - destruct D as [[b|v]|]; try reflexivity. apply IH; lia.
Qed.

Lemma get_unfold (s : store) (a : addr) (k : string) (D : option Child) (h m t : string) :
  partition k dot = (h, m, t) →
  get s a k D =
    let branch := match items (node s a) !! h with Some c => Some c | None => D end in
    if negb (truthy t) then branch
    else match branch with
         | Some (Branch b) => get s b t D
         | _ => D
         end.
Proof.
  intros E. unfold get.
  destruct (String.length k) as [|n] eqn:Hn; simpl; rewrite E;
    destruct (truthy t) eqn:Ht; simpl; try reflexivity;
    pose proof (partition_length _ _ _ _ E Ht); try lia.
  destruct (items (node s a) !! h) as [[b|v]|]; try reflexivity.
  - apply get_rec_fuel; lia.
  - destruct D as [[b|v]|]; try reflexivity. apply get_rec_fuel; lia.
Qed.

(** ** Reading the store after a write *)

Lemma length_update (s : store) (a : addr) (f : NestedDict → NestedDict) :
  length (objs (update s a f)) = length (objs s).
Proof. apply length_insert. Qed.

Lemma node_update_eq (s : store) (a : addr) (f : NestedDict → NestedDict) :
  a < length (objs s) → node (update s a f) a = f (node s a).
Proof.
  intros Ha. unfold node at 1, update; simpl.
  by rewrite list_lookup_insert_eq.
Qed.

Lemma node_update_ne (s : store) (a x : addr) (f : NestedDict → NestedDict) :
  x ≠ a → node (update s a f) x = node s x.
Proof.
  intros Hx. unfold node, update; simpl.
  by rewrite list_lookup_insert_ne.
Qed.

Lemma length_alloc (s : store) (n : NestedDict) :
  length (objs (alloc s n).1) = S (length (objs s)).
Proof. simpl. rewrite length_app. simpl. lia. Qed.

Lemma node_alloc_old (s : store) (n : NestedDict) (x : addr) :
  x < length (objs s) → node (alloc s n).1 x = node s x.
Proof. intros Hx. unfold node; simpl. by rewrite lookup_app_l. Qed.

Lemma node_alloc_new (s : store) (n : NestedDict) :
  node (alloc s n).1 (length (objs s)) = n.
Proof.
  unfold node; simpl. rewrite lookup_app_r by lia.
  by rewrite Nat.sub_diag.
Qed.

Lemma node_set_owner (s : store) (v : T) (a x : addr) :
  node (set_owner s v a) x = node s x.
Proof. reflexivity. Qed.

Lemma node_invalid (s : store) (a : addr) :
  length (objs s) ≤ a → node s a = NestedDict_init None None.
Proof. intros Ha. unfold node. by rewrite lookup_ge_None_2. Qed.

Lemma items_invalid (s : store) (a : addr) (seg : string) :
  length (objs s) ≤ a → items (node s a) !! seg = None.
Proof. intros Ha. by rewrite node_invalid. Qed.

Lemma chainmap_invalid (s : store) (a : addr) (k : string) :
  length (objs s) ≤ a → chainmap (node s a) !! k = None.
Proof. intros Ha. by rewrite node_invalid. Qed.

Lemma get_head (s : store) (a : addr) (k h m t : string) (D : option Child) :
  partition k dot = (h, m, t) →
  get s a h D = match items (node s a) !! h with Some c => Some c | None => D end.
Proof.
  intros E. by rewrite (get_unfold s a h D _ _ _ (partition_head _ _ _ _ E)).
Qed.

Lemma set_rec_fuel (f1 f2 : nat) (s : store) (a : addr) (k : string) (v : T) :
  String.length k ≤ f1 → String.length k ≤ f2 →
  set_rec f1 s a k v = set_rec f2 s a k v.
Proof.
  revert f2 s a k. induction f1 as [|f1 IH]; intros f2 s a k H1 H2;
    destruct f2 as [|f2]; simpl;
    destruct (partition k dot) as [[h m] t] eqn:E;
    destruct (truthy t) eqn:Ht; simpl; try reflexivity;
    pose proof (partition_length _ _ _ _ E Ht); try lia.
  destruct (get _ a h None) as [[b|w]|]; simpl; apply IH; lia.
Qed.

Lemma set_unfold (s : store) (a : addr) (k : string) (v : T) (h m t : string) :
  partition k dot = (h, m, t) →
  set s a k v =
    let s1 := chainmap_setitem s a k v in
    if truthy t then
      let '(s2, next_branch) :=
        match items (node s1 a) !! h with
        | Some (Branch b) => (s1, b)
        | _ => alloc s1 (NestedDict_init (Some a) (Some h))
        end in
      set (setitem s2 a h (Branch next_branch)) next_branch t v
    else setitem (set_owner s1 v a) a h (Leaf v).
Proof.
  intros E. unfold set.
  destruct (String.length k) as [|n] eqn:Hn; simpl; rewrite E;
    destruct (truthy t) eqn:Ht; simpl; try reflexivity;
    pose proof (partition_length _ _ _ _ E Ht); try lia.
  rewrite (get_head _ _ _ _ _ _ _ E).
  destruct (items _ !! h) as [[b|w]|]; simpl; apply set_rec_fuel; lia.
Qed.

Lemma contains_rec_fuel (f1 f2 : nat) (s : store) (a : addr) (k : string) :
  String.length k ≤ f1 → String.length k ≤ f2 →
  contains_rec f1 s a k = contains_rec f2 s a k.
Proof.
  revert f2 s a k. induction f1 as [|f1 IH]; intros f2 s a k H1 H2;
    destruct f2 as [|f2]; simpl;
    destruct (partition k dot) as [[h m] t] eqn:E;
    destruct (truthy t) eqn:Ht; simpl; try reflexivity;
    pose proof (partition_length _ _ _ _ E Ht); try lia.
  destruct (items (node s a) !! h) as [[b|w]|]; try reflexivity. apply IH; lia.
Qed.

Lemma contains_unfold (s : store) (a : addr) (k h m t : string) :
  partition k dot = (h, m, t) →
  contains s a k =
    match items (node s a) !! h with
    | Some branch =>
        if negb (truthy t) then true
        else match branch with
             | Branch b => contains s b t
             | Leaf _ => false
             end
    | None => false
    end.
Proof.
  intros E. unfold contains.
  destruct (String.length k) as [|n] eqn:Hn; simpl; rewrite E;
    destruct (truthy t) eqn:Ht; simpl; try reflexivity;
    pose proof (partition_length _ _ _ _ E Ht); try lia.
  destruct (items (node s a) !! h) as [[b|w]|]; try reflexivity.
  apply contains_rec_fuel; lia.
Qed.

Lemma delete_key_rec_fuel (f1 f2 : nat) (s : store) (a : addr) (k : string) :
  String.length k ≤ f1 → String.length k ≤ f2 →
  delete_key_rec f1 s a k = delete_key_rec f2 s a k.
Proof.
  revert f2 s a k. induction f1 as [|f1 IH]; intros f2 s a k H1 H2;
    destruct f2 as [|f2]; simpl;
    destruct (partition k dot) as [[h m] t] eqn:E;
    destruct (truthy t) eqn:Ht; simpl; try reflexivity;
    pose proof (partition_length _ _ _ _ E Ht); try lia.
  destruct (items _ !! h) as [[b|w]|]; try reflexivity. apply IH; lia.
Qed.

Lemma delete_key_unfold (s : store) (a : addr) (k h m t : string) :
  partition k dot = (h, m, t) →
  delete_key s a k =
    let s1 := delete_leaf_keys s a k in
    match items (node s1 a) !! h with
    | None => (s1, Some (KeyError h))
    | Some c =>
        if negb (truthy t) then (delitem s1 a h, None)
        else match c with
             | Leaf _ => (s1, Some AttributeError)
             | Branch sub_node => delete_key s1 sub_node t
             end
    end.
Proof.
  intros E. unfold delete_key.
  destruct (String.length k) as [|n] eqn:Hn; simpl; rewrite E;
    destruct (truthy t) eqn:Ht; simpl; try reflexivity;
    pose proof (partition_length _ _ _ _ E Ht); try lia.
  destruct (items _ !! h) as [[b|w]|]; try reflexivity.
  apply delete_key_rec_fuel; lia.
Qed.

Lemma node_update_ge (s : store) (a x : addr) (f : NestedDict → NestedDict) :
  length (objs s) ≤ a → node (update s a f) x = node s x.
Proof.
  intros Ha. unfold node, update; simpl. by rewrite list_insert_ge.
Qed.

(** ** Well-formedness is an invariant of the methods *)

Lemma wf_update (s : store) (a : addr) (f : NestedDict → NestedDict) :
  wf s →
  (∀ n, parent (f n) = parent n ∧ _key (f n) = _key n) →
  (∀ seg b, items (f (node s a)) !! seg = Some (Branch b) →
     b < length (objs s) ∧
     parent (node s b) = Some a ∧ _key (node s b) = Some seg) →
  wf (update s a f).
Proof.
  intros Hwf Hmeta Hitems.
  destruct (decide (a < length (objs s))) as [Ha|Ha].
  2:{ intros x. rewrite length_update. intros Hx.
      rewrite node_update_ge by lia. destruct (Hwf x Hx) as [Hp Hc].
      split; [done|]. intros seg b Hb. rewrite node_update_ge by lia. eauto. }
  assert (Hpk : ∀ y, parent (node (update s a f) y) = parent (node s y) ∧
                     _key (node (update s a f) y) = _key (node s y)).
  { intros y. destruct (decide (y = a)) as [->|Hne].
    - rewrite node_update_eq by done. apply Hmeta.
    - by rewrite node_update_ne. }
  intros x. rewrite length_update. intros Hx.
  destruct (Hwf x Hx) as [Hp Hc]. split.
  - intros p. rewrite (proj1 (Hpk x)). apply Hp.
  - intros seg b. rewrite (proj1 (Hpk b)), (proj2 (Hpk b)).
    destruct (decide (x = a)) as [->|Hne].
    + rewrite node_update_eq by done. apply Hitems.
    + rewrite node_update_ne by done. apply Hc.
Qed.

Lemma wf_chainmap_setitem (s : store) (a : addr) (k : string) (v : T) :
  wf s → wf (chainmap_setitem s a k v).
Proof.
  intros Hwf. apply wf_update; [done|done|]. simpl. intros seg b Hb.
  destruct (decide (a < length (objs s))) as [Ha|Ha].
  - by apply (Hwf a Ha).
  - by rewrite items_invalid in Hb by lia.
Qed.

Lemma wf_chainmap_delitem (s : store) (a : addr) (k : string) :
  wf s → wf (chainmap_delitem s a k).
Proof.
  intros Hwf. apply wf_update; [done|done|]. simpl. intros seg b Hb.
  destruct (decide (a < length (objs s))) as [Ha|Ha].
  - by apply (Hwf a Ha).
  - by rewrite items_invalid in Hb by lia.
Qed.

Lemma wf_set_owner (s : store) (v : T) (a : addr) : wf s → wf (set_owner s v a).
Proof. intros Hwf. exact Hwf. Qed.

Lemma wf_setitem_leaf (s : store) (a : addr) (h : string) (v : T) :
  wf s → wf (setitem s a h (Leaf v)).
Proof.
  intros Hwf. apply wf_update; [done|done|]. simpl. intros seg b Hb.
  destruct (decide (h = seg)) as [->|Hne].
  - by rewrite lookup_insert_eq in Hb.
  - rewrite lookup_insert_ne in Hb by done.
    destruct (decide (a < length (objs s))) as [Ha|Ha].
    + by apply (Hwf a Ha).
    + by rewrite items_invalid in Hb by lia.
Qed.

Lemma wf_setitem_branch (s : store) (a : addr) (h : string) (b : addr) :
  wf s → b < length (objs s) →
  parent (node s b) = Some a → _key (node s b) = Some h →
  wf (setitem s a h (Branch b)).
Proof.
  intros Hwf Hb Hp Hk. apply wf_update; [done|done|]. simpl. intros seg c Hc.
  destruct (decide (h = seg)) as [->|Hne].
  - rewrite lookup_insert_eq in Hc. by inversion Hc; subst.
  - rewrite lookup_insert_ne in Hc by done.
    destruct (decide (a < length (objs s))) as [Ha|Ha].
    + by apply (Hwf a Ha).
    + by rewrite items_invalid in Hc by lia.
Qed.

Lemma wf_delitem (s : store) (a : addr) (h : string) : wf s → wf (delitem s a h).
Proof.
  intros Hwf. apply wf_update; [done|done|]. simpl. intros seg b Hb.
  apply lookup_delete_Some in Hb as [_ Hb].
  destruct (decide (a < length (objs s))) as [Ha|Ha].
  - by apply (Hwf a Ha).
  - by rewrite items_invalid in Hb by lia.
Qed.

Lemma wf_clear (s : store) (a : addr) : wf s → wf (clear s a).
Proof.
  intros Hwf. apply wf_update; [done|done|]. simpl. intros seg b Hb.
  by rewrite lookup_empty in Hb.
Qed.

Lemma wf_alloc (s : store) (a : addr) (k : option string) :
  wf s → a < length (objs s) →
  wf (alloc s (NestedDict_init (Some a) k)).1.
Proof.
  intros Hwf Ha x. rewrite length_alloc. intros Hx.
  destruct (decide (x = length (objs s))) as [->|Hne].
  - rewrite node_alloc_new. simpl. split.
    + intros p Hp. inversion Hp; by subst.
    + intros seg b Hb. by rewrite lookup_empty in Hb.
  - assert (Hx' : x < length (objs s)) by lia.
    rewrite node_alloc_old by done. destruct (Hwf x Hx') as [Hp Hc].
    split; [done|]. intros seg b Hb. destruct (Hc _ _ Hb) as (Hb1 & Hb2 & Hb3).
    rewrite node_alloc_old by done. split; [lia|done].
Qed.

(** ** One step of [set] *)

Lemma set_descend (s : store) (a : addr) (k : string) (v : T) (h m t : string) :
  partition k dot = (h, m, t) → truthy t = true →
  set s a k v = set (descend s a k h v).1 (descend s a k h v).2 t v.
Proof.
  intros E Ht. rewrite (set_unfold _ _ _ _ _ _ _ E). simpl. rewrite Ht.
  unfold descend. by destruct (items _ !! h) as [[b|w]|].
Qed.

Lemma set_leaf (s : store) (a : addr) (k : string) (v : T) (h m t : string) :
  partition k dot = (h, m, t) → truthy t = false →
  set s a k v = setitem (set_owner (chainmap_setitem s a k v) v a) a h (Leaf v).
Proof.
  intros E Ht. rewrite (set_unfold _ _ _ _ _ _ _ E). simpl. by rewrite Ht.
Qed.

Lemma descend_spec (s : store) (a : addr) (k h : string) (v : T) :
  wf s → a < length (objs s) →
  let s3 := (descend s a k h v).1 in
  let nb := (descend s a k h v).2 in
  wf s3 ∧ a < nb ∧ nb < length (objs s3) ∧
  length (objs s) ≤ length (objs s3) ∧
  node s3 a =
    mkNestedDict (parent (node s a)) (_key (node s a))
      (<[k := v]> (chainmap (node s a))) (<[h := Branch nb]> (items (node s a))) ∧
  (∀ x, x ≠ a → x < length (objs s) → node s3 x = node s x) ∧
  parent (node s3 nb) = Some a ∧ _key (node s3 nb) = Some h ∧
  (items (node s a) !! h = Some (Branch nb) ∨
   ((∀ b, items (node s a) !! h ≠ Some (Branch b)) ∧
    nb = length (objs s) ∧ node s3 nb = NestedDict_init (Some a) (Some h))).
Proof.
  intros Hwf Ha. unfold descend.
  pose proof (wf_chainmap_setitem s a k v Hwf) as Hwf1.
  assert (Hlen1 : length (objs (chainmap_setitem s a k v)) = length (objs s))
    by apply length_update.
  assert (Hn1 : node (chainmap_setitem s a k v) a =
    mkNestedDict (parent (node s a)) (_key (node s a))
      (<[k := v]> (chainmap (node s a))) (items (node s a)))
    by (unfold chainmap_setitem; by rewrite node_update_eq).
  assert (Hx1 : ∀ x, x ≠ a → node (chainmap_setitem s a k v) x = node s x)
    by (intros x Hx; unfold chainmap_setitem; by rewrite node_update_ne).
  generalize dependent (chainmap_setitem s a k v). intros s1 Hwf1 Hlen1 Hn1 Hx1.
  assert (∃ s2 nb,
    match items (node s1 a) !! h with
    | Some (Branch b) => (s1, b)
    | _ => alloc s1 (NestedDict_init (Some a) (Some h))
    end = (s2, nb) ∧
    wf s2 ∧ length (objs s) ≤ length (objs s2) ∧ a < nb ∧ nb < length (objs s2) ∧
    (∀ x, x < length (objs s) → node s2 x = node s1 x) ∧
    parent (node s2 nb) = Some a ∧ _key (node s2 nb) = Some h ∧
    (items (node s a) !! h = Some (Branch nb) ∨
     ((∀ b, items (node s a) !! h ≠ Some (Branch b)) ∧
      nb = length (objs s) ∧ node s2 nb = NestedDict_init (Some a) (Some h))))
    as (s2 & nb & -> & Hwf2 & Hlen2 & Hanb & Hnb & Hold & Hpnb & Hknb & Hcase).
  { rewrite Hn1. simpl.
    destruct (items (node s a) !! h) as [[b|w]|] eqn:Hh.
    1:{ destruct (Hwf a Ha) as [_ Hc]. destruct (Hc _ _ Hh) as (Hb & Hpb & Hkb).
        destruct (Hwf b Hb) as [Hlt _]. specialize (Hlt _ Hpb).
        exists s1, b. rewrite !Hx1 by lia. split_and!; auto; lia. }
    all: exists (alloc s1 (NestedDict_init (Some a) (Some h))).1, (length (objs s1));
      split; [reflexivity|];
      rewrite length_alloc, node_alloc_new, Hlen1;
      (split_and!; try done; try lia;
       [ apply wf_alloc; [done|lia]
       | intros x Hx; apply node_alloc_old; lia
       | right; split; [done|split; [lia|done]] ]). }
  cbn [fst snd]. unfold setitem.
  rewrite length_update, node_update_eq, (Hold a Ha), Hn1 by lia. simpl.
  assert (nb ≠ a) by lia. rewrite node_update_ne by done.
  split_and!; try done; try lia.
  - apply wf_setitem_branch; done.
  - intros x Hx Hlt. rewrite node_update_ne, Hold by done. by apply Hx1.
Qed.

Lemma descend_meta (s : store) (a : addr) (k h : string) (v : T) (y : addr) :
  wf s → a < length (objs s) → y < length (objs s) →
  parent (node (descend s a k h v).1 y) = parent (node s y) ∧
  _key (node (descend s a k h v).1 y) = _key (node s y).
Proof.
  intros Hwf Ha Hy.
  destruct (descend_spec s a k h v Hwf Ha) as (_ & _ & _ & _ & Hna & Hx & _).
  destruct (decide (y = a)) as [->|Hne].
  - by rewrite Hna.
  - by rewrite Hx.
Qed.

(** ** Parent chains *)

Lemma anc_le (s : store) (x a : addr) :
  wf s → x < length (objs s) → anc s x a → a ≤ x.
Proof.
  intros Hwf Hx Hanc. induction Hanc as [a|x p a Hp _ IH]; [done|].
  destruct (Hwf x Hx) as [Hlt _]. specialize (Hlt _ Hp). lia.
Qed.

Lemma anc_child (s : store) (x b a : addr) :
  parent (node s b) = Some a → anc s x b → anc s x a.
Proof.
  intros Hp Hanc. induction Hanc as [b|x p b Hxp _ IH].
  - eapply anc_step; [done|apply anc_refl].
  - eapply anc_step; [done|]. by apply IH.
Qed.

Lemma anc_stable (s s' : store) (x c : addr) :
  wf s → x < length (objs s) →
  (∀ y, y < length (objs s) → parent (node s' y) = parent (node s y)) →
  anc s' x c → anc s x c.
Proof.
  intros Hwf Hx Hpar Hanc. induction Hanc as [c|x p c Hp _ IH]; [apply anc_refl|].
  rewrite Hpar in Hp by done.
  destruct (Hwf x Hx) as [Hlt _]. specialize (Hlt _ Hp).
  eapply anc_step; [done|]. apply IH. lia.
Qed.

Lemma anc_linear (s : store) (x b c : addr) :
  anc s x b → anc s x c → anc s b c ∨ anc s c b.
Proof.
  intros Hb. revert c. induction Hb as [b|x p b Hp Hb IH]; intros c Hc.
  - by left.
  - inversion Hc as [|x' p' c' Hp' Hc']; subst.
    + right. by eapply anc_step.
    + rewrite Hp in Hp'. inversion Hp'; subst. by apply IH.
Qed.

(** Two distinct slots of one node lead to disjoint subtrees. *)
Lemma anc_siblings (s : store) (a b c x : addr) (h1 h2 : string) :
  wf s → a < length (objs s) → x < length (objs s) →
  items (node s a) !! h1 = Some (Branch b) →
  items (node s a) !! h2 = Some (Branch c) →
  h1 ≠ h2 → anc s x b → anc s x c → False.
Proof.
  intros Hwf Ha Hx Hb Hc Hne Hxb Hxc.
  destruct (Hwf a Ha) as [_ Hch].
  destruct (Hch _ _ Hb) as (Hb1 & Hb2 & Hb3).
  destruct (Hch _ _ Hc) as (Hc1 & Hc2 & Hc3).
  destruct (Hwf b Hb1) as [Hbl _]. specialize (Hbl _ Hb2).
  destruct (Hwf c Hc1) as [Hcl _]. specialize (Hcl _ Hc2).
  assert (b ≠ c) by (intros ->; congruence).
  destruct (anc_linear _ _ _ _ Hxb Hxc) as [Hbc|Hcb].
  - inversion Hbc as [|? p ? Hp Hpc]; subst; [done|].
    rewrite Hb2 in Hp. inversion Hp; subst.
    pose proof (anc_le _ _ _ Hwf Ha Hpc). lia.
  - inversion Hcb as [|? p ? Hp Hpb]; subst; [done|].
    rewrite Hc2 in Hp. inversion Hp; subst.
    pose proof (anc_le _ _ _ Hwf Ha Hpb). lia.
Qed.

(** ** [set]: invariant and footprint *)

Lemma set_wf (k : string) :
  ∀ (s : store) (a : addr) (v : T),
    wf s → a < length (objs s) →
    wf (set s a k v) ∧ length (objs s) ≤ length (objs (set s a k v)).
Proof.
  induction k as [k IH] using key_ind. intros s a v Hwf Ha.
  destruct (partition k dot) as [[h m] t] eqn:E. destruct (truthy t) eqn:Ht.
  - rewrite (set_descend _ _ _ _ _ _ _ E Ht).
    destruct (descend_spec s a k h v Hwf Ha) as (Hwf3 & Hanb & Hnb & Hlen & _).
    destruct (IH _ _ _ eq_refl Ht _ _ v Hwf3 Hnb) as [? ?]. split; [done|lia].
  - rewrite (set_leaf _ _ _ _ _ _ _ E Ht). split.
    + by apply wf_setitem_leaf, wf_set_owner, wf_chainmap_setitem.
    + unfold setitem, chainmap_setitem. rewrite length_update. simpl.
      by rewrite length_insert.
Qed.

(** [set] writes only below the node it is called on (and to the nodes it
    creates). *)
Lemma set_frame (k : string) :
  ∀ (s : store) (a : addr) (v : T) (x : addr),
    wf s → a < length (objs s) → x < length (objs s) →
    ¬ anc s x a → node (set s a k v) x = node s x.
Proof.
  induction k as [k IH] using key_ind. intros s a v x Hwf Ha Hx Hanc.
  assert (x ≠ a) by (intros ->; apply Hanc, anc_refl).
  destruct (partition k dot) as [[h m] t] eqn:E. destruct (truthy t) eqn:Ht.
  - rewrite (set_descend _ _ _ _ _ _ _ E Ht).
    destruct (descend_spec s a k h v Hwf Ha)
      as (Hwf3 & Hanb & Hnb & Hlen & _ & Hold & Hpnb & _).
    rewrite (IH _ _ _ eq_refl Ht); [by apply Hold|done|done|lia|].
    intros Hanc3. apply Hanc.
    assert (Hpar : ∀ y, y < length (objs s) →
      parent (node (descend s a k h v).1 y) = parent (node s y))
      by (intros y Hy; by apply descend_meta).
    pose proof (anc_stable _ _ _ _ Hwf Hx Hpar Hanc3) as Hanc'.
    pose proof (anc_le _ _ _ Hwf Hx Hanc').
    eapply anc_child; [|done]. rewrite <- Hpar by lia. done.
  - rewrite (set_leaf _ _ _ _ _ _ _ E Ht).
    unfold setitem. rewrite node_update_ne by done.
    rewrite node_set_owner. unfold chainmap_setitem.
    by rewrite node_update_ne.
Qed.

Lemma set_leaf_node (s : store) (a : addr) (k h : string) (v : T) :
  a < length (objs s) →
  node (setitem (set_owner (chainmap_setitem s a k v) v a) a h (Leaf v)) a =
    mkNestedDict (parent (node s a)) (_key (node s a))
      (<[k := v]> (chainmap (node s a))) (<[h := Leaf v]> (items (node s a))).
Proof.
  intros Ha. unfold setitem.
  rewrite node_update_eq by (simpl; by rewrite length_insert).
  rewrite node_set_owner. unfold chainmap_setitem. by rewrite node_update_eq.
Qed.

(** The node [set] is called on, afterwards: its flat index has the key,
    its slot for the head of the key has the next branch or the leaf. *)
Lemma set_node_self (s : store) (a : addr) (k h m t : string) (v : T) :
  wf s → a < length (objs s) → partition k dot = (h, m, t) →
  node (set s a k v) a =
    mkNestedDict (parent (node s a)) (_key (node s a))
      (<[k := v]> (chainmap (node s a)))
      (<[h := if truthy t then Branch (descend s a k h v).2 else Leaf v]>
         (items (node s a))).
Proof.
  intros Hwf Ha E. destruct (truthy t) eqn:Ht.
  - rewrite (set_descend _ _ _ _ _ _ _ E Ht).
    destruct (descend_spec s a k h v Hwf Ha)
      as (Hwf3 & Hanb & Hnb & Hlen & Hna & _).
    rewrite set_frame; [done|done|done|lia|].
    intros Hanc. apply (anc_le _ _ _ Hwf3) in Hanc; lia.
  - rewrite (set_leaf _ _ _ _ _ _ _ E Ht). by apply set_leaf_node.
Qed.

(** ** Round trip *)

Lemma set_bound (k : string) :
  ∀ (s : store) (a : addr) (v : T),
    wf s → a < length (objs s) → bound (set s a k v) a k v.
Proof.
  induction k as [k IH] using key_ind. intros s a v Hwf Ha.
  destruct (partition k dot) as [[h m] t] eqn:E.
  pose proof (set_node_self s a k h m t v Hwf Ha E) as Hself.
  destruct (truthy t) eqn:Ht.
  - eapply bound_branch; [exact E|exact Ht|..].
    + rewrite Hself. simpl. apply lookup_insert_eq.
    + rewrite Hself. simpl. apply lookup_insert_eq.
    + rewrite (set_descend _ _ _ _ _ _ _ E Ht).
      destruct (descend_spec s a k h v Hwf Ha) as (Hwf3 & _ & Hnb & _).
      by apply (IH _ _ _ eq_refl Ht).
  - eapply bound_leaf; [exact E|exact Ht|..].
    + rewrite Hself. simpl. apply lookup_insert_eq.
    + rewrite Hself. simpl. apply lookup_insert_eq.
Qed.

Lemma bound_get (s : store) (a : addr) (k : string) (v : T) (D : option Child) :
  bound s a k v → get s a k D = Some (Leaf v).
Proof.
  induction 1 as [a k h m t v E Ht Hc Hi|a k h m t b v E Ht Hc Hi _ IH];
    rewrite (get_unfold _ _ _ _ _ _ _ E); simpl; rewrite Hi, Ht; simpl; done.
Qed.

Lemma bound_contains (s : store) (a : addr) (k : string) (v : T) :
  bound s a k v → contains s a k = true.
Proof.
  induction 1 as [a k h m t v E Ht Hc Hi|a k h m t b v E Ht Hc Hi _ IH];
    rewrite (contains_unfold _ _ _ _ _ _ E); rewrite Hi, Ht; simpl; done.
Qed.

Lemma bound_chainmap (s : store) (a : addr) (k : string) (v : T) :
  bound s a k v → chainmap (node s a) !! k = Some v.
Proof. by destruct 1. Qed.

(** ** Frame: a binding survives a write elsewhere *)

Lemma set_leaf_node_ne (s : store) (a x : addr) (k h : string) (v : T) :
  x ≠ a →
  node (setitem (set_owner (chainmap_setitem s a k v) v a) a h (Leaf v)) x =
    node s x.
Proof.
  intros Hx. unfold setitem. rewrite node_update_ne by done.
  rewrite node_set_owner. unfold chainmap_setitem. by rewrite node_update_ne.
Qed.

(** [bound] reads only the nodes below the one it starts from. *)
Lemma bound_ext (s s' : store) (a : addr) (k : string) (v : T) :
  wf s → a < length (objs s) →
  (∀ x, x < length (objs s) → anc s x a → node s' x = node s x) →
  bound s a k v → bound s' a k v.
Proof.
  intros Hwf Ha Hsame Hb.
  induction Hb as [a k h m t v E Ht Hc Hi|a k h m t b v E Ht Hc Hi Hb IH].
  - eapply bound_leaf; [exact E|exact Ht|..];
      rewrite Hsame; auto using anc_refl.
  - destruct (Hwf a Ha) as [_ Hch]. destruct (Hch _ _ Hi) as (Hb1 & Hb2 & _).
    apply (bound_branch s' a k h m t b v E Ht);
      [rewrite Hsame; auto using anc_refl..|].
    apply IH; [done|]. intros x Hx Hanc. apply Hsame; [done|].
    by eapply anc_child.
Qed.

(** A write under another slot of [a] leaves the subtree of slot [h1] as it
    was. *)
Lemma set_frame_sibling (s : store) (a b x : addr) (k2 h2 m2 t2 h1 : string) (v2 : T) :
  wf s → a < length (objs s) →
  partition k2 dot = (h2, m2, t2) → h1 ≠ h2 →
  items (node s a) !! h1 = Some (Branch b) →
  x < length (objs s) → anc s x b →
  node (set s a k2 v2) x = node s x.
Proof.
  intros Hwf Ha E2 Hne Hi Hx Hanc.
  destruct (Hwf a Ha) as [_ Hch]. destruct (Hch _ _ Hi) as (Hb1 & Hb2 & _).
  destruct (Hwf b Hb1) as [Hlt _]. specialize (Hlt _ Hb2).
  pose proof (anc_le _ _ _ Hwf Hx Hanc) as Hle.
  assert (x ≠ a) by lia.
  destruct (truthy t2) eqn:Ht2.
  - rewrite (set_descend _ _ _ _ _ _ _ E2 Ht2).
    destruct (descend_spec s a k2 h2 v2 Hwf Ha)
      as (Hwf3 & Hanb & Hnb & Hlen & _ & Hold & _ & _ & Hcase).
    rewrite set_frame; [by apply Hold|done|done|lia|].
    intros Hanc3.
    assert (Hpar : ∀ y, y < length (objs s) →
      parent (node (descend s a k2 h2 v2).1 y) = parent (node s y))
      by (intros y Hy; by apply descend_meta).
    pose proof (anc_stable _ _ _ _ Hwf Hx Hpar Hanc3) as Hanc'.
    pose proof (anc_le _ _ _ Hwf Hx Hanc').
    destruct Hcase as [Hcase|(_ & Hnew & _)]; [|lia].
    exact (anc_siblings s a b _ x h1 h2 Hwf Ha Hx Hi Hcase Hne Hanc Hanc').
  - rewrite (set_leaf _ _ _ _ _ _ _ E2 Ht2). by apply set_leaf_node_ne.
Qed.

Lemma set_bound_frame (k2 : string) :
  ∀ (s : store) (a : addr) (k1 : string) (v1 v2 : T),
    wf s → a < length (objs s) → bound s a k1 v1 →
    composite k1 = true → composite k2 = true →
    extends k1 k2 = false → extends k2 k1 = false →
    bound (set s a k2 v2) a k1 v1.
Proof.
  induction k2 as [k2 IH] using key_ind.
  intros s a k1 v1 v2 Hwf Ha Hb Hc1 Hc2 He12 He21.
  assert (Hne : k1 ≠ k2) by (intros ->; by rewrite extends_refl in He12).
  destruct (partition k2 dot) as [[h2 m2] t2] eqn:E2.
  specialize (IH _ _ _ eq_refl).
  pose proof (set_node_self s a k2 h2 m2 t2 v2 Hwf Ha E2) as Hself.
  destruct (composite_partition _ _ _ _ Hc2 E2) as [Hh2 Hk2].
  assert (Hcm : chainmap (node (set s a k2 v2) a) !! k1 = chainmap (node s a) !! k1)
    by (rewrite Hself; simpl; by rewrite lookup_insert_ne).
  inversion Hb as [? ? h1 m1 t1 ? E1 Ht1 Hch Hit
                  |? ? h1 m1 t1 b ? E1 Ht1 Hch Hit Hbb]; subst.
  - destruct (composite_partition _ _ _ _ Hc1 E1) as [Hh1 [[_ Hk1]|[Ht1' _]]];
      [|congruence].
    destruct (decide (h1 = h2)) as [->|Hh].
    + exfalso. destruct Hk2 as [[_ Hk2]|(_ & _ & Hk2)]; [congruence|].
      rewrite Hk1, Hk2 in He21. by rewrite extends_app in He21.
    + eapply bound_leaf; [exact E1|exact Ht1|by rewrite Hcm|].
      rewrite Hself; simpl. by rewrite lookup_insert_ne.
  - destruct (composite_partition _ _ _ _ Hc1 E1)
      as [Hh1 [[Hf _]|(_ & Hct1 & Hk1)]]; [congruence|].
    destruct (Hwf a Ha) as [_ Hchild].
    destruct (Hchild _ _ Hit) as (Hb1 & Hb2 & _).
    destruct (Hwf b Hb1) as [Hlt _]. specialize (Hlt _ Hb2).
    destruct (decide (h1 = h2)) as [->|Hh].
    + destruct Hk2 as [[_ Hk2]|(Ht2 & Hct2 & Hk2)].
      * exfalso. rewrite Hk1, <- Hk2 in He12. by rewrite extends_app in He12.
      * rewrite Hk1, Hk2 in He12, He21. rewrite extends_cancel in He12, He21.
        destruct (descend_spec s a k2 h2 v2 Hwf Ha)
          as (Hwf3 & Hanb & Hnb & Hlen & Hna & Hold & _ & _ & Hcase).
        assert (Hnb_eq : (descend s a k2 h2 v2).2 = b).
        { destruct Hcase as [Hcase|(Hno & _)]; [congruence|].
          by destruct (Hno b). }
        eapply bound_branch; [exact E1|exact Ht1|by rewrite Hcm|..].
        { rewrite Hself; simpl. rewrite Ht2, lookup_insert_eq. by rewrite Hnb_eq. }
        rewrite (set_descend _ _ _ _ _ _ _ E2 Ht2), Hnb_eq.
        apply IH; try done; [lia|].
        eapply bound_ext; [exact Hwf|exact Hb1| |exact Hbb].
        intros x Hx Hanc. apply Hold; [|done].
        pose proof (anc_le _ _ _ Hwf Hx Hanc). lia.
    + eapply bound_branch; [exact E1|exact Ht1|by rewrite Hcm|..].
      { rewrite Hself; simpl. by rewrite lookup_insert_ne. }
      eapply bound_ext; [exact Hwf|exact Hb1| |exact Hbb].
      intros x Hx Hanc. by eapply set_frame_sibling.
Qed.

(** ** [delete_key]: what the flat-index cleanup removes *)

Lemma lookup_foldr_delete (m : gmap string T) (l : list string) (k : string) :
  foldr delete m l !! k = if decide (k ∈ l) then None else m !! k.
Proof.
  induction l as [|x l IH]; cbn [foldr].
  - rewrite decide_False; [done|]. by intros ?%elem_of_nil.
  - destruct (decide (x = k)) as [->|Hne].
    + rewrite lookup_delete_eq. rewrite decide_True; [done|]. apply elem_of_cons; auto.
    + rewrite lookup_delete_ne by done. rewrite IH.
      destruct (decide (k ∈ l)) as [Hin|Hin].
      * rewrite decide_True; [done|]. apply elem_of_cons; auto.
      * rewrite decide_False; [done|].
        intros [?|?]%elem_of_cons; congruence.
Qed.

Lemma elem_of_leaf_keys_to_delete (n : NestedDict) (key k : string) :
  k ∈ leaf_keys_to_delete n key ↔
  startswith k key = true ∧ is_Some (chainmap n !! k).
Proof.
  unfold leaf_keys_to_delete. rewrite list_elem_of_filter, list_elem_of_fmap.
  split.
  - intros [Hs ([k' v] & -> & Hin)]. split; [done|].
    apply elem_of_map_to_list in Hin. by exists v.
  - intros [Hs [v Hv]]. split; [done|]. exists (k, v). split; [done|].
    by apply elem_of_map_to_list.
Qed.

Lemma foldr_delitem_spec (l : list string) (s : store) (a : addr) :
  ∃ s', foldr (λ leaf_key s, chainmap_delitem s a leaf_key) s l = s' ∧
  length (objs s') = length (objs s) ∧
  (∀ x, x ≠ a → node s' x = node s x) ∧
  parent (node s' a) = parent (node s a) ∧
  _key (node s' a) = _key (node s a) ∧
  items (node s' a) = items (node s a) ∧
  chainmap (node s' a) = foldr delete (chainmap (node s a)) l.
Proof.
  induction l as [|k l IH]; cbn [foldr]; [by eexists|].
  destruct IH as (s' & -> & Hlen & Hne & Hp & Hk & Hi & Hc).
  eexists; split; [reflexivity|]. unfold chainmap_delitem.
  rewrite length_update.
  split; [done|]. split; [intros x Hx; rewrite node_update_ne by done; auto|].
  destruct (decide (a < length (objs s))) as [Ha|Ha].
  - rewrite node_update_eq by lia. simpl. by rewrite Hc.
  - rewrite node_update_ge by lia. split_and!; try done.
    rewrite Hc. rewrite !node_invalid by lia. simpl.
    assert (Hemp : foldr delete (∅ : gmap string T) l = ∅).
    { clear. induction l as [|x l IH]; cbn [foldr]; [done|].
      by rewrite IH, delete_empty. }
    by rewrite Hemp, delete_empty.
Qed.

Lemma delete_leaf_keys_spec (s : store) (a : addr) (key : string) :
  ∃ s', delete_leaf_keys s a key = s' ∧
  length (objs s') = length (objs s) ∧
  (∀ x, x ≠ a → node s' x = node s x) ∧
  (∀ x, parent (node s' x) = parent (node s x)) ∧
  (∀ x, _key (node s' x) = _key (node s x)) ∧
  (∀ x, items (node s' x) = items (node s x)) ∧
  (∀ k, chainmap (node s' a) !! k =
        if startswith k key then None else chainmap (node s a) !! k).
Proof.
  unfold delete_leaf_keys.
  destruct (foldr_delitem_spec (leaf_keys_to_delete (node s a) key) s a)
    as (s' & -> & Hlen & Hne & Hp & Hk & Hi & Hc).
  eexists; split; [reflexivity|]. split_and!; try done.
  1-3: intros x; destruct (decide (x = a)) as [->|Hx]; [done|by rewrite Hne].
  intros k. rewrite Hc, lookup_foldr_delete.
  destruct (startswith k key) eqn:Hs.
  - destruct (chainmap (node s a) !! k) as [v|] eqn:Hv.
    + rewrite decide_True; [done|]. apply elem_of_leaf_keys_to_delete. eauto.
    + by case_decide.
  - rewrite decide_False; [done|].
    intros [? _]%elem_of_leaf_keys_to_delete. congruence.
Qed.

(** [delete_key] only removes entries of flat indexes; when it raises it
    has changed no dictionary. *)
Lemma delete_key_shrinks (k : string) :
  ∀ (s : store) (a : addr),
    (∀ x k', chainmap (node s x) !! k' = None →
             chainmap (node (delete_key s a k).1 x) !! k' = None) ∧
    (is_Some (delete_key s a k).2 →
     ∀ x, items (node (delete_key s a k).1 x) = items (node s x)).
Proof.
  induction k as [k IH] using key_ind. intros s a.
  destruct (partition k dot) as [[h m] t] eqn:E. specialize (IH _ _ _ eq_refl).
  rewrite (delete_key_unfold _ _ _ _ _ _ E). cbv zeta.
  destruct (delete_leaf_keys_spec s a k) as (s1 & -> & Hlen & Hne & _ & _ & Hi & Hc).
  assert (Hshr : ∀ x k', chainmap (node s x) !! k' = None →
    chainmap (node s1 x) !! k' = None).
  { intros x k' Hx. destruct (decide (x = a)) as [->|Hxa].
    - rewrite Hc. by destruct (startswith k' k).
    - by rewrite Hne. }
  destruct (items (node s1 a) !! h) as [c|] eqn:Hh; [|by split].
  destruct (truthy t) eqn:Ht; simpl.
  - destruct c as [b|w]; [|by split].
    destruct (IH eq_refl s1 b) as [IH1 IH2]. split.
    + intros x k' Hx. by apply IH1, Hshr.
    + intros Herr x. by rewrite IH2, Hi.
  - split; [|by intros [? ?]].
    intros x k' Hx. unfold delitem.
    destruct (decide (x = a)) as [->|Hxa].
    + destruct (decide (a < length (objs s1))).
      * rewrite node_update_eq by done. simpl. by apply Hshr.
      * rewrite node_update_ge by lia. by apply Hshr.
    + rewrite node_update_ne by done. by apply Hshr.
Qed.

Lemma delete_key_missing (s : store) (a : addr) (k seg : string) :
  missing s a k seg →
  ∀ s1, (∀ x, items (node s1 x) = items (node s x)) →
    (delete_key s1 a k).2 = Some (KeyError seg) ∧
    ∀ b r, on_walk s a k b r →
      ∀ k', startswith k' r = true →
        chainmap (node (delete_key s1 a k).1 b) !! k' = None.
Proof.
  induction 1 as [a k h m t E Hi|a k h m t b seg E Ht Hi Hm IH];
    intros s1 Hs1; rewrite (delete_key_unfold _ _ _ _ _ _ E); cbv zeta;
    destruct (delete_leaf_keys_spec s1 a k)
      as (s2 & -> & Hlen & Hne & _ & _ & Hi2 & Hc);
    rewrite Hi2, Hs1, Hi.
  - split; [done|]. intros b r Hw k' Hk'. simpl.
    inversion Hw as [|? ? h' m' t' c ? ? E' Ht' Hi' Hw']; subst.
    + by rewrite Hc, Hk'.
    + rewrite E in E'. inversion E'; subst. congruence.
  - rewrite Ht. simpl.
    destruct (IH s2) as [IH1 IH2]; [intros x; by rewrite Hi2|].
    split; [done|]. intros c r Hw k' Hk'.
    inversion Hw as [|? ? h' m' t' c' ? ? E' Ht' Hi' Hw']; subst.
    + apply delete_key_shrinks. by rewrite Hc, Hk'.
    + rewrite E in E'. inversion E'; subst.
      rewrite Hi in Hi'. inversion Hi'; subst. by eapply IH2.
Qed.

(** [delete_key] clears, at the node it is called on, every flat-index
    entry whose key starts with the text of [k], whatever character follows
    and whatever the outcome. *)
Lemma delete_key_purges (s : store) (a : addr) (k k' : string) :
  startswith k' k = true →
  chainmap (node (delete_key s a k).1 a) !! k' = None.
Proof.
  intros Hs. destruct (partition k dot) as [[h m] t] eqn:E.
  rewrite (delete_key_unfold _ _ _ _ _ _ E). cbv zeta.
  destruct (delete_leaf_keys_spec s a k) as (s1 & -> & Hlen & _ & _ & _ & _ & Hc).
  specialize (Hc k'). rewrite Hs in Hc.
  destruct (items (node s1 a) !! h) as [c|]; [|done].
  destruct (truthy t); simpl.
  - destruct c as [b|w]; [|done]. by apply delete_key_shrinks.
  - unfold delitem. destruct (decide (a < length (objs s1))).
    + by rewrite node_update_eq.
    + by rewrite node_update_ge by lia.
Qed.

Lemma wf_delete_leaf_keys (s : store) (a : addr) (k : string) :
  wf s → wf (delete_leaf_keys s a k).
Proof.
  intros Hwf. unfold delete_leaf_keys.
  induction (leaf_keys_to_delete (node s a) k) as [|x l IH]; cbn [foldr]; [done|].
  by apply wf_chainmap_delitem.
Qed.

Lemma delete_key_wf (k : string) :
  ∀ (s : store) (a : addr), wf s → wf (delete_key s a k).1.
Proof.
  induction k as [k IH] using key_ind. intros s a Hwf.
  destruct (partition k dot) as [[h m] t] eqn:E. specialize (IH _ _ _ eq_refl).
  rewrite (delete_key_unfold _ _ _ _ _ _ E). cbv zeta.
  pose proof (wf_delete_leaf_keys s a k Hwf) as Hwf1.
  destruct (items _ !! h) as [c|]; [|done].
  destruct (truthy t); simpl.
  - destruct c as [b|w]; [|done]. by apply IH.
  - by apply wf_delitem.
Qed.

(** ** [get] on a key that does not resolve *)


(** ** [set] and the flat index *)

Lemma set_chainmap (s : store) (a : addr) (k : string) (v : T) :
  wf s → a < length (objs s) →
  chainmap (node (set s a k v) a) = <[k := v]> (chainmap (node s a)).
Proof.
  intros Hwf Ha. destruct (partition k dot) as [[h m] t] eqn:E.
  by rewrite (set_node_self _ _ _ _ _ _ _ Hwf Ha E).
Qed.


(** ** The [key] property *)

Lemma key_rec_fuel (s : store) (f1 f2 : nat) (a : addr) :
  wf s → a < length (objs s) → a < f1 → a < f2 →
  key_rec f1 s a = key_rec f2 s a.
Proof.
  intros Hwf. revert f2 a.
  induction f1 as [|f1 IH]; intros f2 a Ha H1 H2; [lia|].
  destruct f2 as [|f2]; [lia|]. simpl.
  destruct (parent (node s a)) as [p|] eqn:Hp; [|done].
  destruct (Hwf a Ha) as [Hlt _]. specialize (Hlt _ Hp).
  case_bool_decide; [done|]. by rewrite (IH f2 p) by lia.
Qed.

Lemma key_unfold (s : store) (a : addr) :
  wf s → a < length (objs s) →
  key s a =
    let n := node s a in
    let own := Some (default "" (_key n)) in
    match parent n with
    | Some p =>
        if bool_decide (items (node s p) = ∅) then own
        else match key s p with
             | None => None
             | Some pk =>
                 if truthy pk then Some (pk ++ "." ++ format_key (_key n))
                 else own
             end
    | None => own
    end.
Proof.
  intros Hwf Ha. unfold key.
  destruct (length (objs s)) as [|n] eqn:Hn; [lia|]. simpl.
  destruct (parent (node s a)) as [p|] eqn:Hp; [|done].
  assert (Ha' : a < length (objs s)) by lia.
  destruct (Hwf a Ha') as [Hlt _]. specialize (Hlt _ Hp).
  case_bool_decide; [done|].
  by rewrite (key_rec_fuel s n (S n) p) by (try done; lia).
Qed.

(** On a well-formed store the walk up the parent links ends. *)
Lemma key_total (s : store) (a : addr) :
  wf s → a < length (objs s) → is_Some (key s a).
Proof.
  intros Hwf. induction a as [a IH] using lt_wf_ind. intros Ha.
  rewrite key_unfold by done. cbv zeta.
  destruct (parent (node s a)) as [p|] eqn:Hp; [|by eexists].
  destruct (Hwf a Ha) as [Hlt _]. specialize (Hlt _ Hp).
  case_bool_decide; [by eexists|].
  destruct (IH p Hlt ltac:(lia)) as [pk ->].
  destruct (truthy pk); by eexists.
Qed.

Lemma key_root (s : store) (r : addr) :
  wf s → r < length (objs s) →
  parent (node s r) = None → default "" (_key (node s r)) = "" →
  key s r = Some "".
Proof.
  intros Hwf Hr Hp Hk. rewrite key_unfold by done. cbv zeta.
  by rewrite Hp, Hk.
Qed.

Lemma key_child (s : store) (a b : addr) (seg pa : string) :
  wf s → a < length (objs s) →
  items (node s a) !! seg = Some (Branch b) →
  key s a = Some pa →
  key s b = Some (if truthy pa then pa ++ "." ++ seg else seg).
Proof.
  intros Hwf Ha Hi Hka.
  destruct (Hwf a Ha) as [_ Hch]. destruct (Hch _ _ Hi) as (Hb & Hpb & Hkb).
  rewrite key_unfold by done. cbv zeta. rewrite Hpb, Hkb, Hka. simpl.
  rewrite bool_decide_eq_false_2; [by destruct (truthy pa)|].
  intros Hemp. rewrite Hemp in Hi. by rewrite lookup_empty in Hi.
Qed.

Lemma key_get (k : string) :
  ∀ (s : store) (a b : addr) (pa : string),
    wf s → a < length (objs s) → composite k = true →
    key s a = Some pa →
    get s a k None = Some (Branch b) →
    key s b = Some (if truthy pa then pa ++ "." ++ k else k).
Proof.
  induction k as [k IH] using key_ind. intros s a b pa Hwf Ha Hc Hka Hg.
  destruct (partition k dot) as [[h m] t] eqn:E. specialize (IH _ _ _ eq_refl).
  rewrite (get_unfold _ _ _ _ _ _ _ E) in Hg. cbv zeta in Hg.
  destruct (composite_partition _ _ _ _ Hc E)
    as [Hh [[Ht ->]|(Ht & Hct & ->)]]; rewrite Ht in Hg; simpl in Hg.
  - destruct (items (node s a) !! h) as [c|] eqn:Hi; [|done].
    inversion Hg; subst. by apply key_child with a.
  - destruct (items (node s a) !! h) as [[c|w]|] eqn:Hi; try done.
    destruct (Hwf a Ha) as [_ Hch]. destruct (Hch _ _ Hi) as (Hcl & _).
    pose proof (key_child s a c h pa Hwf Ha Hi Hka) as Hkc.
    rewrite (IH Ht s c b _ Hwf Hcl Hct Hkc Hg). f_equal.
    destruct (truthy pa) eqn:Hpa.
    + rewrite truthy_app_l by done. by rewrite !app_assoc.
    + by rewrite Hh.
Qed.

Lemma wf_init : wf init.
Proof.
  intros a Ha. simpl in Ha. assert (a = 0) as -> by lia. split.
  - intros p Hp. discriminate.
  - intros seg b Hb. done.
Qed.

Lemma extends_startswith (k pre : string) :
  extends k pre = true → startswith k pre = true.
Proof.
  unfold startswith. revert k. induction pre as [|c pre IH]; intros k Hk.
  - by destruct k.
  - destruct k as [|d k]; [done|]. simpl in *.
    apply andb_true_iff in Hk as [Hc Hk]. apply Ascii.eqb_eq in Hc as ->.
    destruct (ascii_dec d d); [by apply IH|done].
Qed.

Lemma wf_set (s : store) (a : addr) (k : string) (v : T) :
  wf s → a < length (objs s) → wf (set s a k v).
Proof. intros Hwf Ha. by apply set_wf. Qed.

Lemma descend_length (s : store) (a : addr) (k h : string) (v : T) :
  a < length (objs s) →
  length (objs (descend s a k h v).1) =
    match items (node s a) !! h with
    | Some (Branch _) => length (objs s)
    | _ => S (length (objs s))
    end.
Proof.
  intros Ha. unfold descend, chainmap_setitem. rewrite node_update_eq by done.
  simpl items.
  destruct (items (node s a) !! h) as [[b|w]|];
    unfold alloc; cbv beta iota zeta; cbn [fst];
    unfold setitem; rewrite length_update; cbn [objs];
    rewrite ?length_app, length_update; simpl; lia.
Qed.

Lemma set_meta (k : string) :
  ∀ (s : store) (a : addr) (v : T) (y : addr),
    wf s → a < length (objs s) → y < length (objs s) →
    parent (node (set s a k v) y) = parent (node s y) ∧
    _key (node (set s a k v) y) = _key (node s y).
Proof.
  induction k as [k IH] using key_ind. intros s a v y Hwf Ha Hy.
  destruct (partition k dot) as [[h m] t] eqn:E. specialize (IH _ _ _ eq_refl).
  destruct (truthy t) eqn:Ht.
  - rewrite (set_descend _ _ _ _ _ _ _ E Ht).
    destruct (descend_spec s a k h v Hwf Ha) as (Hwf3 & Hanb & Hnb & Hlen & _).
    destruct (IH eq_refl _ _ v y Hwf3 Hnb ltac:(lia)) as [-> ->].
    by apply descend_meta.
  - rewrite (set_leaf _ _ _ _ _ _ _ E Ht).
    destruct (decide (y = a)) as [->|Hne].
    + by rewrite set_leaf_node.
    + by rewrite set_leaf_node_ne.
Qed.

(** The nodes [set] creates are below the node it is called on. *)
Lemma set_fresh_below (k : string) :
  ∀ (s : store) (a : addr) (v : T) (y : addr),
    wf s → a < length (objs s) →
    length (objs s) ≤ y → y < length (objs (set s a k v)) →
    anc (set s a k v) y a.
Proof.
  induction k as [k IH] using key_ind. intros s a v y Hwf Ha Hy Hy'.
  destruct (partition k dot) as [[h m] t] eqn:E. specialize (IH _ _ _ eq_refl).
  destruct (truthy t) eqn:Ht.
  - rewrite (set_descend _ _ _ _ _ _ _ E Ht) in *.
    destruct (descend_spec s a k h v Hwf Ha)
      as (Hwf3 & Hanb & Hnb & Hlen & _ & _ & Hpnb & _ & Hcase).
    pose proof (descend_length s a k h v Ha) as Hl3.
    destruct (set_meta t _ _ v _ Hwf3 Hnb Hnb) as [Hp' _].
    apply anc_child with (descend s a k h v).2; [by rewrite Hp'|].
    destruct (decide (y < length (objs (descend s a k h v).1))) as [Hlt|Hge].
    + destruct Hcase as [Hcase|(Hno & Hnew & _)].
      * rewrite Hcase in Hl3. lia.
      * assert (y = (descend s a k h v).2) as ->; [|apply anc_refl].
        destruct (items (node s a) !! h) as [[b|w]|]; lia.
    + apply IH; try done. lia.
  - rewrite (set_leaf _ _ _ _ _ _ _ E Ht) in Hy'.
    unfold setitem, chainmap_setitem in Hy'.
    rewrite length_update in Hy'. simpl in Hy'. rewrite length_insert in Hy'. lia.
Qed.

(** ** Index completeness under [set] and [clear] *)

Lemma anc_trans (s : store) (z x c : addr) :
  anc s z x → anc s x c → anc s z c.
Proof.
  induction 1 as [x|z p x Hp _ IH]; [done|].
  intros Hc. eapply anc_step; [done|]. by apply IH.
Qed.

Lemma anc_strict (s : store) (x a : addr) :
  anc s x a → x ≠ a → ∃ c, anc s x c ∧ parent (node s c) = Some a.
Proof.
  induction 1 as [a|x p a Hp Hanc IH]; intros Hne; [done|].
  destruct (decide (p = a)) as [->|Hpa].
  - exists x. split; [apply anc_refl|done].
  - destruct (IH Hpa) as (c & Hc & Hpc). exists c.
    split; [by eapply anc_step|done].
Qed.

Lemma anc_stable_le (s s' : store) (x c : addr) :
  wf s → x < length (objs s) →
  (∀ y, y ≤ x → parent (node s' y) = parent (node s y)) →
  anc s' x c → anc s x c.
Proof.
  intros Hwf Hx Hpar Hanc. induction Hanc as [c|x p c Hp _ IH]; [apply anc_refl|].
  rewrite Hpar in Hp by done.
  destruct (Hwf x Hx) as [Hlt _]. specialize (Hlt _ Hp).
  eapply anc_step; [done|]. apply IH; [lia|]. intros y Hy. apply Hpar. lia.
Qed.

(** Two nodes with the same parent have disjoint subtrees. *)
Lemma anc_same_parent (s : store) (a c d z : addr) :
  wf s → z < length (objs s) →
  parent (node s c) = Some a → parent (node s d) = Some a → c ≠ d →
  anc s z c → anc s z d → False.
Proof.
  intros Hwf Hz Hc Hd Hne Hzc Hzd.
  pose proof (anc_le _ _ _ Hwf Hz Hzc) as Hcz.
  pose proof (anc_le _ _ _ Hwf Hz Hzd) as Hdz.
  destruct (Hwf c ltac:(lia)) as [Hlc _]. specialize (Hlc _ Hc).
  destruct (Hwf d ltac:(lia)) as [Hld _]. specialize (Hld _ Hd).
  destruct (anc_linear _ _ _ _ Hzc Hzd) as [Hcd|Hdc].
  - inversion Hcd as [|? p ? Hp Hpd]; subst; [done|].
    rewrite Hc in Hp. inversion Hp; subst.
    apply (anc_le _ _ _ Hwf) in Hpd; lia.
  - inversion Hdc as [|? p ? Hp Hpc]; subst; [done|].
    rewrite Hd in Hp. inversion Hp; subst.
    apply (anc_le _ _ _ Hwf) in Hpc; lia.
Qed.

(** [get] reads only the nodes below the one it starts from. *)
Lemma get_ext (k : string) :
  ∀ (s s' : store) (x : addr),
    wf s → x < length (objs s) →
    (∀ y, y < length (objs s) → anc s y x → node s' y = node s y) →
    get s' x k None = get s x k None.
Proof.
  induction k as [k IH] using key_ind. intros s s' x Hwf Hx Hsame.
  destruct (partition k dot) as [[h m] t] eqn:E. specialize (IH _ _ _ eq_refl).
  rewrite !(get_unfold _ _ _ _ _ _ _ E). cbv zeta.
  rewrite (Hsame x Hx (anc_refl _ _)).
  destruct (items (node s x) !! h) as [[b|w]|] eqn:Hi; try done.
  destruct (truthy t) eqn:Ht; simpl; [|done].
  destruct (Hwf x Hx) as [_ Hch]. destruct (Hch _ _ Hi) as (Hb & Hpb & _).
  apply IH; [done|done|done|]. intros y Hy Hanc. apply Hsame; [done|].
  by eapply anc_child.
Qed.

Lemma get_init (s : store) (x : addr) (k : string) (p : option addr) (q : option string) :
  node s x = NestedDict_init p q → get s x k None = None.
Proof.
  intros Hn. destruct (partition k dot) as [[h m] t] eqn:E.
  rewrite (get_unfold _ _ _ _ _ _ _ E). cbv zeta. rewrite Hn. simpl.
  rewrite lookup_empty. by destruct (truthy t).
Qed.

(** A key that [set] did not write resolves to a leaf afterwards only if
    it did before. *)
Lemma get_set_other (k2 : string) :
  ∀ (s : store) (a : addr) (k1 : string) (v2 w : T),
    wf s → a < length (objs s) →
    composite k1 = true → composite k2 = true → k1 ≠ k2 →
    get (set s a k2 v2) a k1 None = Some (Leaf w) →
    get s a k1 None = Some (Leaf w).
Proof.
  induction k2 as [k2 IH] using key_ind.
  intros s a k1 v2 w Hwf Ha Hc1 Hc2 Hne Hg.
  destruct (partition k2 dot) as [[h2 m2] t2] eqn:E2. specialize (IH _ _ _ eq_refl).
  destruct (partition k1 dot) as [[h1 m1] t1] eqn:E1.
  pose proof (set_node_self s a k2 h2 m2 t2 v2 Hwf Ha E2) as Hself.
  rewrite (get_unfold _ _ _ _ _ _ _ E1) in Hg. cbv zeta in Hg.
  rewrite (get_unfold _ _ _ _ _ _ _ E1). cbv zeta.
  rewrite Hself in Hg. simpl in Hg.
  destruct (composite_partition _ _ _ _ Hc1 E1) as [Hh1 Hk1].
  destruct (composite_partition _ _ _ _ Hc2 E2) as [Hh2 Hk2].
  destruct (decide (h1 = h2)) as [->|Hh].
  - rewrite lookup_insert_eq in Hg.
    destruct Hk2 as [[Ht2 Hk2]|(Ht2 & Hct2 & Hk2)]; rewrite Ht2 in *.
    + destruct Hk1 as [[Ht1 Hk1]|(Ht1 & _ & _)]; rewrite Ht1 in Hg;
        simpl in Hg; [congruence|discriminate].
    + destruct Hk1 as [[Ht1 Hk1]|(Ht1 & Hct1 & Hk1)]; rewrite Ht1 in Hg;
        simpl in Hg; [discriminate|].
      rewrite Ht1. simpl.
      rewrite (set_descend _ _ _ _ _ _ _ E2 Ht2) in Hg.
      destruct (descend_spec s a k2 h2 v2 Hwf Ha)
        as (Hwf3 & Hanb & Hnb & Hlen & _ & Hold & _ & _ & Hcase).
      assert (t1 ≠ t2) by congruence.
      apply IH in Hg; try done.
      destruct Hcase as [Hcase|(Hno & Hnew & Hinit)].
      * rewrite Hcase. rewrite <- Hg. symmetry.
        destruct (Hwf a Ha) as [_ Hch]. destruct (Hch _ _ Hcase) as (Hb & _).
        apply get_ext; [done|done|]. intros y Hy Hanc. apply Hold; [|done].
        apply (anc_le _ _ _ Hwf) in Hanc; lia.
      * by rewrite (get_init _ _ _ _ _ Hinit) in Hg.
  - rewrite lookup_insert_ne in Hg by done.
    destruct (items (node s a) !! h1) as [[b|x]|] eqn:Hi; try done.
    destruct (truthy t1) eqn:Ht1; simpl in *; [|done].
    rewrite <- Hg. symmetry.
    destruct (Hwf a Ha) as [_ Hch]. destruct (Hch _ _ Hi) as (Hb & _).
    apply get_ext; [done|done|]. intros y Hy Hanc.
    by eapply set_frame_sibling.
Qed.

Lemma complete_descend (s : store) (a : addr) (k h : string) (v : T) :
  wf s → a < length (objs s) → complete s a →
  complete (descend s a k h v).1 (descend s a k h v).2.
Proof.
  intros Hwf Ha Hcomp.
  destruct (descend_spec s a k h v Hwf Ha)
    as (Hwf3 & Hanb & Hnb & Hlen & _ & Hold & Hpnb & _ & Hcase).
  pose proof (descend_length s a k h v Ha) as Hl3.
  intros y k' w Hy Hanc Hk' Hg.
  pose proof (anc_le _ _ _ Hwf3 Hy Hanc) as Hle.
  destruct Hcase as [Hcase|(Hno & Hnew & Hinit)].
  - rewrite Hcase in Hl3.
    assert (Hys : y < length (objs s)) by lia. assert (y ≠ a) by lia.
    assert (Hanc' : anc s y (descend s a k h v).2).
    { eapply anc_stable; [done|done| |done].
      intros z Hz. by apply descend_meta. }
    destruct (Hwf a Ha) as [_ Hch]. destruct (Hch _ _ Hcase) as (_ & Hpb & _).
    rewrite Hold by done. apply Hcomp; try done.
    + by eapply anc_child.
    + rewrite <- Hg. symmetry. apply get_ext; [done|done|].
      intros z Hz Hzy. apply Hold; [|done].
      apply (anc_le _ _ _ Hwf) in Hzy; lia.
  - assert (y = (descend s a k h v).2) as ->.
    { destruct (items (node s a) !! h) as [[b|x]|]; lia. }
    by rewrite (get_init _ _ _ _ _ Hinit) in Hg.
Qed.

Lemma set_complete (k : string) :
  ∀ (s : store) (a : addr) (v : T),
    wf s → a < length (objs s) → composite k = true →
    complete s a → complete (set s a k v) a.
Proof.
  induction k as [k IH] using key_ind. intros s a v Hwf Ha Hck Hcomp.
  destruct (set_wf k s a v Hwf Ha) as [Hwf' Hlen'].
  destruct (partition k dot) as [[h m] t] eqn:E. specialize (IH _ _ _ eq_refl).
  destruct (composite_partition _ _ _ _ Hck E) as [Hh Hk].
  intros x k' w Hx Hanc Hck' Hg.
  destruct (decide (x = a)) as [->|Hxa].
  { rewrite set_chainmap by done. destruct (decide (k' = k)) as [->|Hkk].
    - rewrite lookup_insert_eq.
      pose proof (set_bound k s a v Hwf Ha) as Hb.
      rewrite (bound_get _ _ _ _ None Hb) in Hg. congruence.
    - rewrite lookup_insert_ne by done.
      apply Hcomp; [done|apply anc_refl|done|].
      exact (get_set_other k s a k' v w Hwf Ha Hck' Hck Hkk Hg). }
  pose proof (anc_le _ _ _ Hwf' Hx Hanc) as Hax.
  assert (Hmeta : ∀ z, z < length (objs s) →
    parent (node (set s a k v) z) = parent (node s z))
    by (intros z Hz; by apply set_meta).
  assert (Hunch : x < length (objs s) →
    (∀ z, z < length (objs s) → anc s z x → node (set s a k v) z = node s z) →
    chainmap (node (set s a k v) x) !! k' = Some w).
  { intros Hxs Hsame. rewrite Hsame by (done || apply anc_refl).
    apply Hcomp; try done.
    - by eapply anc_stable.
    - rewrite <- Hg. symmetry. by apply get_ext. }
  destruct Hk as [[Ht Hk]|(Ht & Hct & Hk)].
  - assert (Hl : length (objs (set s a k v)) = length (objs s)).
    { rewrite (set_leaf _ _ _ _ _ _ _ E Ht). unfold setitem, chainmap_setitem.
      rewrite length_update. simpl. by rewrite length_insert. }
    apply Hunch; [lia|]. intros z Hz Hzx.
    rewrite (set_leaf _ _ _ _ _ _ _ E Ht). apply set_leaf_node_ne.
    apply (anc_le _ _ _ Hwf) in Hzx; lia.
  - destruct (anc_strict _ _ _ Hanc Hxa) as (c & Hxc & Hpc).
    destruct (descend_spec s a k h v Hwf Ha)
      as (Hwf3 & Hanb & Hnb & Hlen & _ & Hold & Hpnb & _ & Hcase).
    pose proof (descend_length s a k h v Ha) as Hl3.
    pose proof (complete_descend s a k h v Hwf Ha Hcomp) as Hcomp3.
    rewrite (set_descend _ _ _ _ _ _ _ E Ht) in *.
    set (s3 := (descend s a k h v).1) in *.
    set (nb := (descend s a k h v).2) in *.
    destruct (decide (c = nb)) as [->|Hcn].
    { by apply (IH Ht s3 nb v Hwf3 Hnb Hct Hcomp3). }
    assert (Hpnb' : parent (node (set s3 nb t v) nb) = Some a).
    { destruct (set_meta t s3 nb v nb Hwf3 Hnb Hnb) as [-> _]. done. }
    assert (Hnot : ∀ z, z < length (objs (set s3 nb t v)) →
      anc (set s3 nb t v) z x → ¬ anc (set s3 nb t v) z nb).
    { intros z Hz Hzx Hznb.
      by apply (anc_same_parent _ a c nb z Hwf' Hz Hpc Hpnb' Hcn
                  (anc_trans _ _ _ _ Hzx Hxc)). }
    assert (Hxs : x < length (objs s)).
    { destruct (decide (x < length (objs s))) as [|Hge]; [done|]. exfalso.
      apply (Hnot x Hx (anc_refl _ _)).
      destruct (decide (x < length (objs s3))) as [Hlt|Hge3].
      - assert (x = nb) as ->; [|apply anc_refl].
        destruct Hcase as [Hcase|(Hno & Hnew & _)];
          [rewrite Hcase in Hl3; lia|].
        destruct (items (node s a) !! h) as [[b|y]|]; lia.
      - apply set_fresh_below; try done. lia. }
    apply Hunch; [done|]. intros z Hz Hzx.
    pose proof (anc_le _ _ _ Hwf Hz Hzx) as Hxz.
    rewrite set_frame; [apply Hold; [lia|done]|done|done|lia|].
    intros Hz3.
    assert (Hz' : z < length (objs (set s3 nb t v))) by lia.
    apply (Hnot z Hz').
    + eapply (anc_stable_le (set s3 nb t v) s); [done|done| |done].
      intros y Hy. symmetry. apply Hmeta. lia.
    + eapply (anc_stable_le (set s3 nb t v) s3); [done|done| |done].
      intros y Hy. symmetry. apply set_meta; [done|done|lia].
Qed.

Lemma clear_complete (s : store) (a : addr) :
  wf s → a < length (objs s) → complete s a → complete (clear s a) a.
Proof.
  intros Hwf Ha Hcomp x k w Hx Hanc Hk Hg.
  unfold clear in *. rewrite length_update in Hx.
  destruct (decide (x = a)) as [->|Hxa].
  { rewrite (get_init _ a k (parent (node s a)) (_key (node s a))) in Hg; [done|].
    by rewrite node_update_eq. }
  assert (Hpar : ∀ y, y < length (objs s) →
    parent (node (update s a (λ n, mkNestedDict (parent n) (_key n) ∅ ∅)) y)
      = parent (node s y)).
  { intros y Hy. destruct (decide (y = a)) as [->|Hne].
    - by rewrite node_update_eq.
    - by rewrite node_update_ne. }
  pose proof (anc_stable _ _ _ _ Hwf Hx Hpar Hanc) as Hanc'.
  pose proof (anc_le _ _ _ Hwf Hx Hanc') as Hle.
  rewrite node_update_ne by done. apply Hcomp; try done.
  rewrite <- Hg. symmetry. apply get_ext; [done|done|].
  intros z Hz Hzx. rewrite node_update_ne; [done|].
  apply (anc_le _ _ _ Hwf) in Hzx; lia.
Qed.

Lemma complete_init : complete init root.
Proof.
  intros x k v Hx _ _ Hg. simpl in Hx. assert (x = 0) as -> by lia.
  by rewrite (get_init _ _ _ None None) in Hg.
Qed.

Lemma built_wf (s : store) : built s → wf s.
Proof.
  induction 1 as [|s a k v _ IH Ha|s a k _ IH Ha|s a _ IH Ha].
  - apply wf_init.
  - by apply wf_set.
  - by apply delete_key_wf.
  - by apply wf_clear.
Qed.

(** * The claims *)

(** C1 (the package's [__contains__] breaks it): after [set("a.b.c", v)] on
    an empty root, the flat index of the root holds ["a.b.c"] only, yet
    [contains] answers true for the branch keys ["a"] and ["a.b"]: it walks
    the tree and stops with true on any slot that exists.  The copy of the
    class in the test module tests the flat index and answers false. *)
Theorem contains_true_on_branch (v : T) :
  let s := set init root "a.b.c" v in
  contains s root "a" = true ∧ contains s root "a.b" = true ∧
  contains s root "a.b.c" = true ∧ contains s root "a.b.c.d" = false ∧
  chainmap (node s root) !! "a" = None ∧
  chainmap (node s root) !! "a.b" = None ∧
  chainmap (node s root) !! "a.b.c" = Some v ∧
  contains_chainmap s root "a" = false ∧
  contains_chainmap s root "a.b" = false ∧
  contains_chainmap s root "a.b.c" = true ∧
  contains_chainmap s root "a.b.c.d" = false.
Proof. vm_compute. repeat split. Qed.

(** C2 (the code breaks it): with ["ab"] and ["a"] both set on an empty
    root, [delete_key("a")] succeeds and removes the flat-index entry of
    ["ab"] as well, because the cleanup tests [startswith]; the leaf at
    ["ab"] is still in the tree, so [get] finds it and [get_leaf] raises. *)
Theorem delete_key_removes_textual_prefix (v1 v2 : T) :
  let s := set (set init root "ab" v1) root "a" v2 in
  let r := delete_key s root "a" in
  chainmap (node s root) !! "ab" = Some v1 ∧
  extends "ab" "a" = false ∧ startswith "ab" "a" = true ∧
  r.2 = None ∧
  chainmap (node r.1 root) !! "ab" = None ∧
  get r.1 root "ab" None = Some (Leaf v1) ∧
  get_leaf r.1 root "ab" = inl (KeyError "ab").
Proof. vm_compute. repeat split. Qed.


(** C4: round trip.  Right after [set(k, v)] on a node of a well-formed
    store, [get(k)] and [get_leaf(k)] on that node return [v] and [k] is
    contained, for the tree walk and for the flat-index test alike. *)
Theorem set_round_trip (s : store) (a : addr) (k : string) (v : T) :
  wf s → a < length (objs s) →
  get (set s a k v) a k None = Some (Leaf v) ∧
  get_leaf (set s a k v) a k = inr v ∧
  contains (set s a k v) a k = true ∧
  contains_chainmap (set s a k v) a k = true.
Proof.
  intros Hwf Ha. pose proof (set_bound k s a v Hwf Ha) as Hb.
  pose proof (bound_chainmap _ _ _ _ Hb) as Hc.
  split_and!.
  - by apply bound_get.
  - unfold get_leaf. by rewrite Hc.
  - by eapply bound_contains.
  - unfold contains_chainmap. rewrite Hc. by apply bool_decide_eq_true_2.
Qed.

(** C5 (the code breaks it, by the defect of C2): with ["a.bc"] and
    ["a.b"] set on an empty root the hierarchy is index complete;
    [delete_key("a.b")] succeeds and leaves it incomplete: the leaf at
    ["a.bc"] is still reachable from the root and, as ["bc"], from the
    branch at ["a"], and neither flat index has an entry for it. *)
Theorem delete_key_breaks_index_completeness (v1 v2 : T) :
  let s := set (set init root "a.bc" v1) root "a.b" v2 in
  let r := delete_key s root "a.b" in
  complete s root ∧ r.2 = None ∧ ¬ complete r.1 root ∧
  get r.1 root "a.bc" None = Some (Leaf v1) ∧
  chainmap (node r.1 root) !! "a.bc" = None ∧
  ∃ a, get r.1 root "a" None = Some (Branch a) ∧
       get r.1 a "bc" None = Some (Leaf v1) ∧
       chainmap (node r.1 a) !! "bc" = None.
Proof.
  cbv zeta. split_and!.
  - assert (Hr : root < length (objs (set init root "a.bc" v1)))
      by (vm_compute; lia).
    apply set_complete; [|exact Hr|reflexivity|].
    + apply wf_set; [apply wf_init|vm_compute; lia].
    + apply set_complete;
        [apply wf_init|vm_compute; lia|reflexivity|apply complete_init].
  - vm_compute. reflexivity.
  - intros Hc. specialize (Hc root "a.bc" v1).
    assert (Hnone : chainmap (node (delete_key
      (set (set init root "a.bc" v1) root "a.b" v2) root "a.b").1 root)
      !! "a.bc" = None) by (vm_compute; reflexivity).
    rewrite Hnone in Hc. discriminate Hc;
      [vm_compute; lia|apply anc_refl|reflexivity|vm_compute; reflexivity].
  - vm_compute. reflexivity.
  - vm_compute. reflexivity.
  - exists 1. vm_compute. repeat split.
Qed.

(** C6: when the walk of [k] reaches a node that lacks the segment asked
    for, [delete_key(k)] raises [KeyError] for that segment; no dictionary
    has changed, but in the store it leaves behind every node the walk
    visited has lost the flat-index entries whose keys start with what was
    left of [k] there, those [k] covers at a segment boundary among them. *)
Theorem delete_key_lookup_miss (s : store) (a : addr) (k seg : string) :
  missing s a k seg →
  (delete_key s a k).2 = Some (KeyError seg) ∧
  (∀ x, items (node (delete_key s a k).1 x) = items (node s x)) ∧
  ∀ b r, on_walk s a k b r →
    ∀ k', startswith k' r = true ∨ extends k' r = true →
      chainmap (node (delete_key s a k).1 b) !! k' = None.
Proof.
  intros Hm. destruct (delete_key_missing s a k seg Hm s) as [He Hc]; [done|].
  split; [done|]. split.
  - apply delete_key_shrinks. rewrite He. by eexists.
  - intros b r Hw k' [Hk|Hk]; eapply Hc; eauto.
    by apply extends_startswith.
Qed.


(** C8: path identity.  In a well-formed store whose root [r] has no
    parent and an absent or empty key: the root reports the empty path; a
    node held in slot [seg] of a node with path [pa] reports [pa.seg], and
    [seg] alone when [pa] is empty; and the branch that a composite key [k]
    resolves to from the root reports [k]. *)
Theorem key_path_identity (s : store) (r : addr) :
  wf s → r < length (objs s) →
  parent (node s r) = None → default "" (_key (node s r)) = "" →
  key s r = Some "" ∧
  (∀ a seg b, a < length (objs s) → items (node s a) !! seg = Some (Branch b) →
     ∃ pa, key s a = Some pa ∧
           key s b = Some (if truthy pa then pa ++ "." ++ seg else seg)) ∧
  (∀ k b, composite k = true → get s r k None = Some (Branch b) →
     key s b = Some k).
Proof.
  intros Hwf Hr Hp Hk. pose proof (key_root s r Hwf Hr Hp Hk) as Hroot.
  split_and!.
  - done.
  - intros a seg b Ha Hi. destruct (key_total s a Hwf Ha) as [pa Hpa].
    exists pa. split; [done|]. by eapply key_child.
  - intros k b Hc Hg. by rewrite (key_get k s r b "" Hwf Hr Hc Hroot Hg).
Qed.

(** C9: after [set("a.b.c", v1)] and [set("a.b.d", v2)] on an empty root,
    [delete_key("a.b")] succeeds; neither key is contained afterwards, and
    the root and the branch at ["a"], which both had the two entries, have
    neither. *)
Theorem delete_key_covers_subtree (v1 v2 : T) :
  let s := set (set init root "a.b.c" v1) root "a.b.d" v2 in
  let r := delete_key s root "a.b" in
  r.2 = None ∧
  contains r.1 root "a.b.c" = false ∧ contains r.1 root "a.b.d" = false ∧
  contains_chainmap r.1 root "a.b.c" = false ∧
  contains_chainmap r.1 root "a.b.d" = false ∧
  chainmap (node s root) !! "a.b.c" = Some v1 ∧
  chainmap (node s root) !! "a.b.d" = Some v2 ∧
  chainmap (node r.1 root) !! "a.b.c" = None ∧
  chainmap (node r.1 root) !! "a.b.d" = None ∧
  ∃ a, get s root "a" None = Some (Branch a) ∧
       get r.1 root "a" None = Some (Branch a) ∧
       chainmap (node s a) !! "b.c" = Some v1 ∧
       chainmap (node s a) !! "b.d" = Some v2 ∧
       chainmap (node r.1 a) !! "b.c" = None ∧
       chainmap (node r.1 a) !! "b.d" = None.
Proof. vm_compute. repeat split. exists 1. repeat split. Qed.

(** C10: frame.  For composite keys [k1] and [k2] neither of which is the
    other or continues the other at a segment boundary, [set(k2, v2)] after
    [set(k1, v1)] leaves the binding of [k1]: [get(k1)] returns [v1], and
    every node on the walk of [k1] still maps what is left of [k1] there to
    [v1] in its flat index. *)
Theorem set_preserves_other_binding (s : store) (a : addr) (k1 k2 : string) (v1 v2 : T) :
  wf s → a < length (objs s) →
  composite k1 = true → composite k2 = true →
  extends k1 k2 = false → extends k2 k1 = false →
  get (set (set s a k1 v1) a k2 v2) a k1 None = Some (Leaf v1) ∧
  bound (set (set s a k1 v1) a k2 v2) a k1 v1.
Proof.
  intros Hwf Ha Hc1 Hc2 He12 He21.
  destruct (set_wf k1 s a v1 Hwf Ha) as [Hwf1 Hlen1].
  assert (Hb : bound (set (set s a k1 v1) a k2 v2) a k1 v1).
  { apply set_bound_frame; try done; [lia|]. by apply set_bound. }
  split; [|done]. by apply bound_get.
Qed.

(** X1: index completeness under [set] and [clear].  If every node at or
    below [a] files every leaf reachable from it, it does so after
    [set(k, v)] on [a] with a composite key and after [clear()] on [a];
    the empty root is complete.  (Nodes above [a] are not written to.) *)
Theorem set_clear_keep_index_complete (s : store) (a : addr) :
  wf s → a < length (objs s) → complete s a →
  (∀ k v, composite k = true → complete (set s a k v) a) ∧
  complete (clear s a) a.
Proof.
  intros Hwf Ha Hc. split.
  - intros k v Hk. by apply set_complete.
  - by apply clear_complete.
Qed.

(** X2: ownership.  The methods keep the store well formed: a node held in
    a slot has the holder as its parent and the slot's segment as its key,
    so no node is held by two slots or lies below itself. *)
Theorem methods_keep_wf (s : store) (a : addr) (k : string) (v : T) :
  wf s → a < length (objs s) →
  wf (set s a k v) ∧ wf (delete_key s a k).1 ∧ wf (clear s a).
Proof.
  intros Hwf Ha. split_and!.
  - by apply wf_set.
  - by apply delete_key_wf.
  - by apply wf_clear.
Qed.

(** X3: [delete_key(k)] leaves, in the flat index of the node it is called
    on, no key that starts with the text of [k], whether it succeeds or
    raises. *)
Theorem delete_key_purges_text_prefix (s : store) (a : addr) (k k' : string) :
  startswith k' k = true →
  chainmap (node (delete_key s a k).1 a) !! k' = None.
Proof. apply delete_key_purges. Qed.

(** X4: the methods end.  Each recursive call is on what follows the first
    separator of the key, so a depth of the length of the key is never
    exceeded: with that much fuel or more, the result is the same. *)
Theorem recursion_bounded_by_key (f : nat) (s : store) (a : addr) (k : string)
    (v : T) (D : option Child) :
  String.length k ≤ f →
  get_rec f s a k D = get s a k D ∧
  set_rec f s a k v = set s a k v ∧
  contains_rec f s a k = contains s a k ∧
  delete_key_rec f s a k = delete_key s a k.
Proof.
  intros Hf. split_and!.
  - by apply get_rec_fuel.
  - by apply set_rec_fuel.
  - by apply contains_rec_fuel.
  - by apply delete_key_rec_fuel.
Qed.

(** X5: what the package's [__contains__] computes: it is true exactly when
    [get] finds something under the key, a leaf or a branch. *)
Theorem contains_iff_get (s : store) (a : addr) (k : string) :
  contains s a k = true ↔ is_Some (get s a k None).
Proof.
  revert s a. induction k as [k IH] using key_ind. intros s a.
  destruct (partition k dot) as [[h m] t] eqn:E. specialize (IH _ _ _ eq_refl).
  rewrite (contains_unfold _ _ _ _ _ _ E), (get_unfold _ _ _ _ _ _ _ E).
  cbv zeta.
  destruct (items (node s a) !! h) as [[b|w]|]; destruct (truthy t); simpl;
    try (by split; [eauto|done]);
    try (by split; [done|intros [? ?]]).
  by apply IH.
Qed.

Lemma delete_key_frame_lt (k : string) :
  ∀ (s : store) (a x : addr),
    wf s → a < length (objs s) → x < a →
    node (delete_key s a k).1 x = node s x.
Proof.
  induction k as [k IH] using key_ind. intros s a x Hwf Ha Hx.
  destruct (partition k dot) as [[h m] t] eqn:E. specialize (IH _ _ _ eq_refl).
  rewrite (delete_key_unfold _ _ _ _ _ _ E). cbv zeta.
  pose proof (wf_delete_leaf_keys s a k Hwf) as Hwf1.
  destruct (delete_leaf_keys_spec s a k)
    as (s1 & Hs1 & Hlen & Hne & _ & _ & _ & _).
  rewrite Hs1 in *. assert (x ≠ a) by lia.
  destruct (items (node s1 a) !! h) as [c|] eqn:Hi; [|by apply Hne].
  destruct (truthy t); simpl.
  - destruct c as [b|w]; [|by apply Hne].
    destruct (Hwf1 a ltac:(lia)) as [_ Hch].
    destruct (Hch _ _ Hi) as (Hb & Hpb & _).
    destruct (Hwf1 b Hb) as [Hlt _]. specialize (Hlt _ Hpb).
    rewrite IH; [by apply Hne|done|done|done|lia].
  - unfold delitem. rewrite node_update_ne by done. by apply Hne.
Qed.

(** X7: a successful [delete_key(k)] removes what [k] addressed: from the
    node it was called on, [k] no longer resolves ([get] returns the
    default, [contains] is false) and no flat-index entry that is [k] or
    continues [k] at a segment boundary is left. *)
Theorem delete_key_removes (k : string) :
  ∀ (s : store) (a : addr) (D : option Child),
    wf s → a < length (objs s) →
    (delete_key s a k).2 = None →
    get (delete_key s a k).1 a k D = D ∧
    contains (delete_key s a k).1 a k = false ∧
    ∀ k', extends k' k = true → contains_chainmap (delete_key s a k).1 a k' = false.
Proof.
  induction k as [k IH] using key_ind. intros s a D Hwf Ha Hok.
  split_and!; [| |intros k' Hk'; unfold contains_chainmap;
    rewrite delete_key_purges by (by apply extends_startswith);
    apply bool_decide_eq_false_2; by intros [? ?]].
  all: destruct (partition k dot) as [[h m] t] eqn:E; specialize (IH _ _ _ eq_refl);
    rewrite (get_unfold _ _ _ _ _ _ _ E) || rewrite (contains_unfold _ _ _ _ _ _ E);
    pose proof (delete_key_frame_lt t) as Hframe;
    rewrite (delete_key_unfold _ _ _ _ _ _ E) in *; cbv zeta in *;
    pose proof (wf_delete_leaf_keys s a k Hwf) as Hwf1;
    destruct (delete_leaf_keys_spec s a k)
      as (s1 & Hs1 & Hlen & _); rewrite Hs1 in *;
    (destruct (items (node s1 a) !! h) as [c|] eqn:Hi; [|done]);
    destruct (truthy t) eqn:Ht; simpl in *.
  1,3: destruct c as [b|w]; [|done];
    destruct (Hwf1 a ltac:(lia)) as [_ Hch];
    destruct (Hch _ _ Hi) as (Hb & Hpb & _);
    destruct (Hwf1 b Hb) as [Hlt _]; specialize (Hlt _ Hpb);
    rewrite (Hframe s1 b a Hwf1 Hb Hlt), Hi;
    by apply (IH eq_refl s1 b D Hwf1 Hb Hok).
  all: unfold delitem; rewrite node_update_eq by lia; simpl;
    rewrite lookup_delete_eq; done.
Qed.

End NestedDict.

(** * The claims at concrete stores *)




Lemma set_round_trip_witness :
  wf (@init nat) ∧ root < length (objs (@init nat)) ∧
  (get (set init root "a.b.c" 99) root "a.b.c" None = Some (Leaf 99) ∧
   get_leaf (set init root "a.b.c" 99) root "a.b.c" = inr 99 ∧
   contains (set init root "a.b.c" 99) root "a.b.c" = true ∧
   contains_chainmap (set init root "a.b.c" 99) root "a.b.c" = true).
Proof.
  assert (Hr : root < length (objs (@init nat))) by (vm_compute; lia).
  split; [apply wf_init|]. split; [exact Hr|].
  exact (set_round_trip init root "a.b.c" 99 wf_init Hr).
Defined.

(** The branch at ["a"] is emptied with [clear]; the root still files the
    leaf under ["a.x.y"].  [delete_key("a.x")] on the root removes that
    entry and then fails in the branch. *)
Lemma delete_key_lookup_miss_witness :
  let s := clear (set (@init nat) root "a.x.y" 1) 1 in
  missing s root "a.x" "x" ∧
  chainmap (node s root) !! "a.x.y" = Some 1 ∧
  (delete_key s root "a.x").2 = Some (KeyError "x") ∧
  chainmap (node (delete_key s root "a.x").1 root) !! "a.x.y" = None.
Proof.
  assert (Hm : missing (clear (set (@init nat) root "a.x.y" 1) 1) root "a.x" "x").
  { apply (missing_below _ root "a.x" "a" "." "x" 1 "x");
      [reflexivity|reflexivity|vm_compute; reflexivity|].
    apply (missing_here _ 1 "x" "x" "" ""); [reflexivity|vm_compute; reflexivity]. }
  split; [exact Hm|]. split; [vm_compute; reflexivity|].
  destruct (delete_key_lookup_miss _ root "a.x" "x" Hm) as (He & _ & Hc).
  split; [exact He|].
  apply (Hc root "a.x" (on_walk_here _ root "a.x")). left. reflexivity.
Defined.


Lemma key_path_identity_witness :
  let s := set (@init nat) root "a.b.c" 99 in
  wf s ∧ root < length (objs s) ∧
  parent (node s root) = None ∧ default "" (_key (node s root)) = "" ∧
  key s root = Some "" ∧
  ∃ b, get s root "a.b" None = Some (Branch b) ∧ key s b = Some "a.b".
Proof.
  assert (Hwf : wf (set (@init nat) root "a.b.c" 99))
    by (apply wf_set; [apply wf_init|vm_compute; lia]).
  assert (Hr : root < length (objs (set (@init nat) root "a.b.c" 99)))
    by (vm_compute; lia).
  split; [exact Hwf|]. split; [exact Hr|].
  split; [reflexivity|]. split; [reflexivity|].
  destruct (key_path_identity _ root Hwf Hr eq_refl eq_refl) as (H0 & _ & Hk).
  split; [exact H0|]. exists 2. split; [vm_compute; reflexivity|].
  apply Hk; vm_compute; reflexivity.
Defined.

Lemma set_preserves_other_binding_witness :
  wf (@init nat) ∧ root < length (objs (@init nat)) ∧
  composite "a.b" = true ∧ composite "a.c" = true ∧
  extends "a.b" "a.c" = false ∧ extends "a.c" "a.b" = false ∧
  get (set (set init root "a.b" 1) root "a.c" 2) root "a.b" None = Some (Leaf 1) ∧
  bound (set (set init root "a.b" 1) root "a.c" 2) root "a.b" 1.
Proof.
  assert (Hr : root < length (objs (@init nat))) by (vm_compute; lia).
  split; [apply wf_init|]. split; [exact Hr|].
  do 4 (split; [reflexivity|]).
  exact (set_preserves_other_binding init root "a.b" "a.c" 1 2
           wf_init Hr eq_refl eq_refl eq_refl eq_refl).
Defined.

Lemma set_clear_keep_index_complete_witness :
  wf (@init nat) ∧ root < length (objs (@init nat)) ∧ complete (@init nat) root ∧
  complete (set (@init nat) root "a.b.c" 99) root ∧
  complete (clear (@init nat) root) root.
Proof.
  assert (Hr : root < length (objs (@init nat))) by (vm_compute; lia).
  split; [apply wf_init|]. split; [exact Hr|]. split; [apply complete_init|].
  destruct (set_clear_keep_index_complete init root wf_init Hr complete_init)
    as [Hs Hc].
  split; [apply Hs; reflexivity|exact Hc].
Defined.

Lemma methods_keep_wf_witness :
  wf (@init nat) ∧ root < length (objs (@init nat)) ∧
  wf (set (@init nat) root "a.b" 1) ∧
  wf (delete_key (@init nat) root "a.b").1 ∧
  wf (clear (@init nat) root).
Proof.
  assert (Hr : root < length (objs (@init nat))) by (vm_compute; lia).
  split; [apply wf_init|]. split; [exact Hr|].
  exact (methods_keep_wf init root "a.b" 1 wf_init Hr).
Defined.

Lemma delete_key_purges_text_prefix_witness :
  let s := set (set (@init nat) root "ab" 1) root "a" 2 in
  startswith "ab" "a" = true ∧
  chainmap (node (delete_key s root "a").1 root) !! "ab" = None.
Proof.
  split; [reflexivity|].
  exact (delete_key_purges_text_prefix _ root "a" "ab" eq_refl).
Defined.

(** The scenario of the test module: the outputs it documents for [in] are
    those of the flat-index test. *)
Example scenario :
  let s := set (set (@init string) root "a.b.c" "99") root "d" "42" in
  let s1 := (delete_key s root "a.b.c").1 in
  let s2 := (delete_key s1 root "a").1 in
  contains_chainmap s root "a" = false ∧
  contains_chainmap s root "a.b" = false ∧
  contains_chainmap s root "a.b.c" = true ∧
  contains_chainmap s root "d" = true ∧
  contains_chainmap s root "z" = false ∧
  get s root "a.b.c" None = Some (Leaf "99") ∧
  get s root "d" None = Some (Leaf "42") ∧
  get s root "z" (Some (Leaf "NOT FOUND")) = Some (Leaf "NOT FOUND") ∧
  (delete_key s root "a.b.c").2 = None ∧ (delete_key s1 root "a").2 = None ∧
  contains_chainmap s2 root "a.b.c" = false ∧
  contains s2 root "a.b.c" = false ∧
  get s2 root "a" (Some (Leaf "NOT FOUND")) = Some (Leaf "NOT FOUND").
Proof. vm_compute. repeat split. Qed.

Lemma recursion_bounded_by_key_witness :
  String.length "a.b.c" ≤ 7 ∧
  get_rec 7 (set (@init nat) root "a.b.c" 99) root "a.b.c" None
    = get (set (@init nat) root "a.b.c" 99) root "a.b.c" None ∧
  set_rec 7 (@init nat) root "a.b.c" 99 = set (@init nat) root "a.b.c" 99 ∧
  contains_rec 7 (@init nat) root "a.b.c" = contains (@init nat) root "a.b.c" ∧
  delete_key_rec 7 (@init nat) root "a.b.c" = delete_key (@init nat) root "a.b.c".
Proof.
  assert (Hf : String.length "a.b.c" ≤ 7) by (vm_compute; lia).
  split; [exact Hf|].
  destruct (recursion_bounded_by_key 7 (set (@init nat) root "a.b.c" 99) root
              "a.b.c" 99 None Hf) as (Hg & _).
  destruct (recursion_bounded_by_key 7 (@init nat) root "a.b.c" 99 None Hf)
    as (_ & Hs & Hc & Hd).
  split; [exact Hg|]. split; [exact Hs|]. split; [exact Hc|exact Hd].
Defined.

Lemma delete_key_removes_witness :
  let s := set (@init nat) root "a.b" 1 in
  wf s ∧ root < length (objs s) ∧ (delete_key s root "a.b").2 = None ∧
  get (delete_key s root "a.b").1 root "a.b" (Some (Leaf 7)) = Some (Leaf 7) ∧
  contains (delete_key s root "a.b").1 root "a.b" = false ∧
  ∀ k', extends k' "a.b" = true →
    contains_chainmap (delete_key s root "a.b").1 root k' = false.
Proof.
  assert (Hwf : wf (set (@init nat) root "a.b" 1))
    by (apply wf_set; [apply wf_init|vm_compute; lia]).
  assert (Hr : root < length (objs (set (@init nat) root "a.b" 1)))
    by (vm_compute; lia).
  split; [exact Hwf|]. split; [exact Hr|]. split; [reflexivity|].
  exact (delete_key_removes "a.b" _ root (Some (Leaf 7)) Hwf Hr eq_refl).
Defined.

(** * NestedDict: outcomes of [delete_key], footprints, repeated [set] *)

Section NestedDictMore.

Context {T : Type} `{EqDecision T}.

(** [get], [__contains__] and the walk of [delete_key] read the
    dictionaries only; the flat indexes and the leaves' parent slots do not
    matter to them. *)
Lemma contains_items_ext (k : string) :
  ∀ (s s' : @store T) (a : addr),
    (∀ x, items (node s' x) = items (node s x)) →
    contains s' a k = contains s a k.
Proof.
  induction k as [k IH] using key_ind. intros s s' a Hi.
  destruct (partition k dot) as [[h m] t] eqn:E. specialize (IH _ _ _ eq_refl).
  rewrite !(contains_unfold _ _ _ _ _ _ E), Hi.
  destruct (items (node s a) !! h) as [[b|w]|]; try done.
  destruct (truthy t) eqn:Ht; simpl; [|done]. by apply IH.
Qed.

Lemma missing_items_ext (s s' : @store T) (a : addr) (k seg : string) :
  (∀ x, items (node s' x) = items (node s x)) →
  missing s a k seg → missing s' a k seg.
Proof.
  intros Hi. induction 1 as [a k h m t E Hn|a k h m t b seg E Ht Hb _ IH].
  - eapply missing_here; [exact E|]. by rewrite Hi.
  - eapply missing_below; [exact E|exact Ht| |exact IH]. by rewrite Hi.
Qed.

(** [blocked s a k]: walking [k] from [a] meets a leaf while segments of
    the key remain. *)
Inductive blocked (s : @store T) : addr → string → Prop :=
| blocked_here a k h m t v :
    partition k dot = (h, m, t) → truthy t = true →
    items (node s a) !! h = Some (Leaf v) →
    blocked s a k
| blocked_below a k h m t b :
    partition k dot = (h, m, t) → truthy t = true →
    items (node s a) !! h = Some (Branch b) →
    blocked s b t →
    blocked s a k.

Lemma blocked_items_ext (s1 s2 : @store T) (a : addr) (k : string) :
  (∀ x, items (node s1 x) = items (node s2 x)) →
  blocked s1 a k → blocked s2 a k.
Proof.
  intros Hi. induction 1 as [a k h m t v E Ht Hl|a k h m t b E Ht Hl _ IH].
  - eapply blocked_here; [exact E|exact Ht|]. by rewrite <- Hi.
  - eapply blocked_below; [exact E|exact Ht| |exact IH]. by rewrite <- Hi.
Qed.

Lemma blocked_inv (s : @store T) (a : addr) (k h m t : string) :
  partition k dot = (h, m, t) → blocked s a k →
  truthy t = true ∧
  ((∃ v, items (node s a) !! h = Some (Leaf v)) ∨
   (∃ b, items (node s a) !! h = Some (Branch b) ∧ blocked s b t)).
Proof.
  intros E Hb.
  inversion Hb as [? ? h' m' t' v E' Ht' Hi'|? ? h' m' t' b' E' Ht' Hi' Hb'];
    subst; rewrite E in E'; injection E' as <- <- <-; (split; [done|]).
  - left. by exists v.
  - right. by exists b'.
Qed.

Lemma delete_key_blocked (k : string) :
  ∀ (s : @store T) (a : addr),
    (delete_key s a k).2 = Some AttributeError ↔ blocked s a k.
Proof.
  induction k as [k IH] using key_ind. intros s a.
  destruct (partition k dot) as [[h m] t] eqn:E. specialize (IH _ _ _ eq_refl).
  rewrite (delete_key_unfold _ _ _ _ _ _ E). cbv zeta.
  destruct (delete_leaf_keys_spec s a k) as (s1 & -> & _ & _ & _ & _ & Hi & _).
  rewrite Hi.
  destruct (items (node s a) !! h) as [[b|w]|] eqn:Hh; destruct (truthy t) eqn:Ht;
    simpl.
  - rewrite (IH eq_refl s1 b). split.
    + intros Hb. eapply blocked_below; [exact E|exact Ht|exact Hh|].
      by apply (blocked_items_ext s1 s).
    + intros Hb. destruct (blocked_inv s a k h m t E Hb) as [_ [[v Hv]|[b' [Hb1 Hb2]]]].
      * congruence.
      * rewrite Hh in Hb1. injection Hb1 as <-.
        apply (blocked_items_ext s s1); [intros x; by rewrite Hi|done].
  - split; [done|]. intros Hb. destruct (blocked_inv s a k h m t E Hb). congruence.
  - split; [|done]. intros _. by eapply blocked_here.
  - split; [done|]. intros Hb. destruct (blocked_inv s a k h m t E Hb). congruence.
  - split; [done|]. intros Hb.
    destruct (blocked_inv s a k h m t E Hb) as [_ [[v Hv]|[b' [Hb1 _]]]]; congruence.
  - split; [done|]. intros Hb. destruct (blocked_inv s a k h m t E Hb). congruence.
Qed.

(** X9: the outcome of [delete_key(k)].  It returns normally exactly when
    [k in self] holds for the package's [__contains__]; it raises
    [KeyError] for a segment exactly when the walk of [k] reaches a node
    that lacks that segment; and it raises [AttributeError] exactly when
    the walk meets a leaf while segments of the key remain. *)
Theorem delete_key_outcome (s : @store T) (a : addr) (k seg : string) :
  ((delete_key s a k).2 = None ↔ contains s a k = true) ∧
  ((delete_key s a k).2 = Some (KeyError seg) ↔ missing s a k seg) ∧
  ((delete_key s a k).2 = Some AttributeError ↔ blocked s a k).
Proof.
  split; [|split; [|apply delete_key_blocked]].
  - revert s a. induction k as [k IH] using key_ind. intros s a.
    destruct (partition k dot) as [[h m] t] eqn:E. specialize (IH _ _ _ eq_refl).
    rewrite (delete_key_unfold _ _ _ _ _ _ E), (contains_unfold _ _ _ _ _ _ E).
    cbv zeta.
    destruct (delete_leaf_keys_spec s a k) as (s1 & -> & _ & _ & _ & _ & Hi & _).
    rewrite Hi.
    destruct (items (node s a) !! h) as [[b|w]|]; destruct (truthy t) eqn:Ht;
      simpl; try done.
    rewrite (IH eq_refl s1 b). by rewrite (contains_items_ext t s s1 b Hi).
  - split; [|intros Hm; by apply (delete_key_missing s a k seg Hm s)].
    revert s a. induction k as [k IH] using key_ind. intros s a.
    destruct (partition k dot) as [[h m] t] eqn:E. specialize (IH _ _ _ eq_refl).
    rewrite (delete_key_unfold _ _ _ _ _ _ E). cbv zeta.
    destruct (delete_leaf_keys_spec s a k) as (s1 & -> & _ & _ & _ & _ & Hi & _).
    rewrite Hi.
    destruct (items (node s a) !! h) as [[b|w]|] eqn:Hh.
    + destruct (truthy t) eqn:Ht; simpl; [|done]. intros He.
      eapply missing_below; [exact E|exact Ht|exact Hh|].
      apply (missing_items_ext s1 s); [intros x; by rewrite Hi|].
      by apply IH.
    + by destruct (truthy t).
    + simpl. intros He. inversion He; subst. by eapply missing_here.
Qed.

Lemma delete_key_frame (k : string) :
  ∀ (s : @store T) (a x : addr),
    wf s → a < length (objs s) → x < length (objs s) →
    ¬ anc s x a → node (delete_key s a k).1 x = node s x.
Proof.
  induction k as [k IH] using key_ind. intros s a x Hwf Ha Hx Hanc.
  assert (x ≠ a) by (intros ->; apply Hanc, anc_refl).
  destruct (partition k dot) as [[h m] t] eqn:E. specialize (IH _ _ _ eq_refl).
  rewrite (delete_key_unfold _ _ _ _ _ _ E). cbv zeta.
  pose proof (wf_delete_leaf_keys s a k Hwf) as Hwf1.
  destruct (delete_leaf_keys_spec s a k)
    as (s1 & Hs1 & Hlen & Hne & Hp & _ & _ & _).
  rewrite Hs1 in *.
  destruct (items (node s1 a) !! h) as [c|] eqn:Hi; [|by apply Hne].
  destruct (truthy t); simpl.
  - destruct c as [b|w]; [|by apply Hne].
    destruct (Hwf1 a ltac:(lia)) as [_ Hch].
    destruct (Hch _ _ Hi) as (Hb & Hpb & _).
    rewrite IH; [by apply Hne|done|done|done|lia|].
    intros Hanc1. apply Hanc.
    assert (Hanc' : anc s x b).
    { eapply anc_stable; [exact Hwf|exact Hx| |exact Hanc1].
      intros y _. apply Hp. }
    eapply anc_child; [|exact Hanc']. by rewrite <- Hp.
  - unfold delitem. rewrite node_update_ne by done. by apply Hne.
Qed.

(** X10: footprint.  [set], [delete_key] and [clear] called on a node
    write only to that node and to nodes below it (and to nodes they
    create): every other [NestedDict] of the store stays as it was.  In
    particular the flat indexes of the ancestors of that node are not
    brought up to date. *)
Theorem methods_write_only_below (s : @store T) (a x : addr) (k : string) (v : T) :
  wf s → a < length (objs s) → x < length (objs s) → ¬ anc s x a →
  node (set s a k v) x = node s x ∧
  node (delete_key s a k).1 x = node s x ∧
  node (clear s a) x = node s x.
Proof.
  intros Hwf Ha Hx Hanc. split_and!.
  - by apply set_frame.
  - by apply delete_key_frame.
  - unfold clear. rewrite node_update_ne; [done|].
    intros ->. apply Hanc, anc_refl.
Qed.

(** ** A repeated [set] *)

(** [ends s a k p]: the walk of [k] from [a] goes through branches and
    ends in node [p], where the last segment of [k] is looked up. *)
Inductive ends (s : @store T) : addr → string → addr → Prop :=
| ends_here a k h m t :
    partition k dot = (h, m, t) → truthy t = false → ends s a k a
| ends_below a k h m t b p :
    partition k dot = (h, m, t) → truthy t = true →
    items (node s a) !! h = Some (Branch b) →
    ends s b t p → ends s a k p.

Lemma lookup_node (s : @store T) (a : addr) :
  a < length (objs s) → objs s !! a = Some (node s a).
Proof.
  intros Ha. unfold node. destruct (objs s !! a) as [n|] eqn:Hl; [done|].
  apply lookup_ge_None in Hl. lia.
Qed.

Lemma update_id (s : @store T) (a : addr) (f : NestedDict → NestedDict) :
  a < length (objs s) → f (node s a) = node s a → update s a f = s.
Proof.
  intros Ha Hf. unfold update. rewrite Hf.
  rewrite list_insert_id by (by apply lookup_node). by destruct s.
Qed.

Lemma bound_valid (s : @store T) (a : addr) (k : string) (v : T) :
  bound s a k v → a < length (objs s).
Proof.
  intros Hb. apply bound_chainmap in Hb.
  destruct (decide (a < length (objs s))); [done|].
  by rewrite chainmap_invalid in Hb by lia.
Qed.

(** On a store where [k] is bound to [v] already, [set(k, v)] changes no
    [NestedDict] and only sets the parent of [v] to the node at the end of
    the walk. *)
Lemma set_on_bound (s : @store T) (a : addr) (k : string) (v : T) (p : addr) :
  bound s a k v → ends s a k p →
  objs (set s a k v) = objs s ∧
  ∀ x, owner (set s a k v) x = if decide (x = v) then Some p else owner s x.
Proof.
  intros Hb. revert p.
  induction Hb as [a k h m t v E Ht Hc Hi|a k h m t b v E Ht Hc Hi Hb IH];
    intros p He.
  all: assert (Ha : a < length (objs s))
    by (destruct (decide (a < length (objs s))); [done|];
        by rewrite chainmap_invalid in Hc by lia).
  all: assert (Hs1 : chainmap_setitem s a k v = s)
    by (apply update_id; [done|]; destruct (node s a) as [pa ka cm it] eqn:Hn;
        simpl in *; by rewrite insert_id).
  all: inversion He as [? ? h' m' t' E' Ht'|? ? h' m' t' b' ? E' Ht' Hi' He'];
    subst; rewrite E in E'; inversion E'; subst; try congruence.
  - rewrite (set_leaf _ _ _ _ _ _ _ E Ht), Hs1. unfold setitem, update.
    rewrite node_set_owner. simpl. split; [|done].
    rewrite insert_id by done.
    rewrite <- (list_insert_id (objs s) p (node s p)) at 2
      by (by apply lookup_node).
    f_equal. by destruct (node s p).
  - rewrite Hi in Hi'. inversion Hi'; subst.
    rewrite (set_descend _ _ _ _ _ _ _ E Ht). unfold descend.
    rewrite Hs1, Hi. cbn [fst snd].
    assert (Hs3 : setitem s a h' (Branch b') = s).
    { apply update_id; [done|]. destruct (node s a) as [pa ka cm it] eqn:Hn.
      simpl in *. by rewrite insert_id. }
    rewrite Hs3. by apply IH.
Qed.

Lemma set_ends (k : string) :
  ∀ (s : @store T) (a : addr) (v : T),
    wf s → a < length (objs s) →
    ∃ p, owner (set s a k v) v = Some p ∧ ends (set s a k v) a k p.
Proof.
  induction k as [k IH] using key_ind. intros s a v Hwf Ha.
  destruct (partition k dot) as [[h m] t] eqn:E.
  pose proof (set_node_self s a k h m t v Hwf Ha E) as Hself.
  specialize (IH _ _ _ eq_refl).
  destruct (truthy t) eqn:Ht.
  - destruct (descend_spec s a k h v Hwf Ha) as (Hwf3 & _ & Hnb & _).
    destruct (IH eq_refl _ _ v Hwf3 Hnb) as (p & Hp & He).
    rewrite <- (set_descend _ _ _ _ _ _ _ E Ht) in Hp, He.
    exists p. split; [done|].
    eapply ends_below; [exact E|exact Ht| |exact He].
    rewrite Hself. simpl. apply lookup_insert_eq.
  - exists a. split.
    + rewrite (set_leaf _ _ _ _ _ _ _ E Ht). simpl. by rewrite decide_True.
    + by eapply ends_here.
Qed.

(** X11: [set] is idempotent.  In a well-formed store, a second
    [set(k, v)] right after the first changes no [NestedDict] (no node is
    created, no dictionary and no flat index changes) and no leaf's parent
    slot. *)
Theorem set_idempotent (s : @store T) (a : addr) (k : string) (v : T) :
  wf s → a < length (objs s) →
  objs (set (set s a k v) a k v) = objs (set s a k v) ∧
  ∀ x, owner (set (set s a k v) a k v) x = owner (set s a k v) x.
Proof.
  intros Hwf Ha. destruct (set_ends k s a v Hwf Ha) as (p & Hp & He).
  destruct (set_on_bound _ a k v p (set_bound k s a v Hwf Ha) He) as [Ho Hw].
  split; [done|]. intros x. rewrite Hw. by case_decide; subst.
Qed.

(** ** [clear] on a node below the root *)



(** ** The parent of a leaf *)

(** X8: the leaf's parent slot.  In a well-formed store, after
    [set(k, v)] the walk of [k] ends in a node that holds the leaf [v]
    under the last segment of [k], and the [parent] of [v] is that node. *)
Theorem set_sets_leaf_parent (k : string) :
  ∀ (s : @store T) (a : addr) (v : T),
    wf s → a < length (objs s) →
    ∃ p r, on_walk (set s a k v) a k p r ∧
           truthy (partition r dot).2 = false ∧
           items (node (set s a k v) p) !! (partition r dot).1.1 = Some (Leaf v) ∧
           owner (set s a k v) v = Some p.
Proof.
  induction k as [k IH] using key_ind. intros s a v Hwf Ha.
  destruct (partition k dot) as [[h m] t] eqn:E.
  pose proof (set_node_self s a k h m t v Hwf Ha E) as Hself.
  specialize (IH _ _ _ eq_refl).
  destruct (truthy t) eqn:Ht.
  - destruct (descend_spec s a k h v Hwf Ha) as (Hwf3 & _ & Hnb & _).
    destruct (IH eq_refl _ _ v Hwf3 Hnb) as (p & r & Hw & Hr & Hi & Ho).
    rewrite <- (set_descend _ _ _ _ _ _ _ E Ht) in Hw, Hi, Ho.
    exists p, r. split_and!; try done.
    eapply on_walk_below; [exact E|exact Ht| |exact Hw].
    rewrite Hself. simpl. apply lookup_insert_eq.
  - exists a, k. rewrite E. cbn [fst snd]. split_and!.
    + apply on_walk_here.
    + done.
    + rewrite Hself. simpl. apply lookup_insert_eq.
    + rewrite (set_leaf _ _ _ _ _ _ _ E Ht). simpl. by rewrite decide_True.
Qed.

End NestedDictMore.

Lemma methods_write_only_below_witness :
  wf (set (@init nat) root "a.b" 1) ∧
  1 < length (objs (set (@init nat) root "a.b" 1)) ∧
  root < length (objs (set (@init nat) root "a.b" 1)) ∧
  ¬ anc (set (@init nat) root "a.b" 1) root 1 ∧
  node (set (set (@init nat) root "a.b" 1) 1 "c.d" 2) root
    = node (set (@init nat) root "a.b" 1) root ∧
  node (delete_key (set (@init nat) root "a.b" 1) 1 "b").1 root
    = node (set (@init nat) root "a.b" 1) root ∧
  node (clear (set (@init nat) root "a.b" 1) 1) root
    = node (set (@init nat) root "a.b" 1) root.
Proof.
  assert (Hr : root < length (objs (@init nat))) by (vm_compute; lia).
  assert (Hwf : wf (set (@init nat) root "a.b" 1)) by (apply wf_set; [apply wf_init|exact Hr]).
  assert (H1 : 1 < length (objs (set (@init nat) root "a.b" 1))) by (vm_compute; lia).
  assert (H0 : root < length (objs (set (@init nat) root "a.b" 1))) by (vm_compute; lia).
  assert (Hn : ¬ anc (set (@init nat) root "a.b" 1) root 1).
  { intros H. apply (anc_le _ _ _ Hwf H0) in H. unfold root in H. lia. }
  split; [exact Hwf|]. split; [exact H1|]. split; [exact H0|]. split; [exact Hn|].
  exact (methods_write_only_below (set (@init nat) root "a.b" 1) 1 root "c.d" 2
           Hwf H1 H0 Hn).
Defined.

Lemma set_idempotent_witness :
  wf (@init nat) ∧ root < length (objs (@init nat)) ∧
  objs (set (set (@init nat) root "a.b" 1) root "a.b" 1)
    = objs (set (@init nat) root "a.b" 1) ∧
  ∀ x, owner (set (set (@init nat) root "a.b" 1) root "a.b" 1) x
         = owner (set (@init nat) root "a.b" 1) x.
Proof.
  assert (Hr : root < length (objs (@init nat))) by (vm_compute; lia).
  split; [apply wf_init|]. split; [exact Hr|].
  exact (set_idempotent init root "a.b" 1 wf_init Hr).
Defined.


Lemma set_sets_leaf_parent_witness :
  wf (@init nat) ∧ root < length (objs (@init nat)) ∧
  owner (set (@init nat) root "a.b" 1) 1 = Some 1 ∧
  ∃ p r, on_walk (set (@init nat) root "a.b" 1) root "a.b" p r ∧
         truthy (partition r dot).2 = false ∧
         items (node (set (@init nat) root "a.b" 1) p) !! (partition r dot).1.1
           = Some (Leaf 1) ∧
         owner (set (@init nat) root "a.b" 1) 1 = Some p.
Proof.
  assert (Hr : root < length (objs (@init nat))) by (vm_compute; lia).
  split; [apply wf_init|]. split; [exact Hr|]. split; [vm_compute; reflexivity|].
  exact (set_sets_leaf_parent "a.b" init root 1 wf_init Hr).
Defined.

(** * AliasDict: a dictionary read and written through alias names

    Shallow embedding of [extended_containers/alias_dict.py].  The entries
    of the dictionary are a finite map; [_aliases], whose items
    [aliases_for] lists in order, is the list of its items, one per key. *)

Module AliasDict.

Section AliasDict.

Context {V : Type}.

Record t := mk {
  data : gmap string V;                 (* the entries of the [dict] *)
  _aliases : list (string * string)     (* alias, target *)
}.

(** [self._aliases.get(key)] *)
Fixpoint aliases_get (l : list (string * string)) (key : string) : option string :=
  match l with
  | [] => None
  | (alias, target) :: l' =>
      if decide (alias = key) then Some target else aliases_get l' key
  end.

Definition _canonical (d : t) (key : string) : string :=
  default key (aliases_get (_aliases d) key).

Definition __getitem__ (d : t) (key : string) : exn + V :=
  match data d !! _canonical d key with
  | Some v => inr v
  | None => inl (KeyError (_canonical d key))
  end.

Definition __setitem__ (d : t) (key : string) (value : V) : t :=
  mk (<[_canonical d key := value]> (data d)) (_aliases d).

Definition __delitem__ (d : t) (key : string) : exn + t :=
  match data d !! _canonical d key with
  | Some _ => inr (mk (delete (_canonical d key) (data d)) (_aliases d))
  | None => inl (KeyError (_canonical d key))
  end.

Definition __contains__ (d : t) (key : string) : bool :=
  bool_decide (is_Some (data d !! _canonical d key)).

Definition get (d : t) (key : string) (default : option V) : option V :=
  match data d !! _canonical d key with
  | Some v => Some v
  | None => default
  end.

(** [pop]: [default] is [None] when the argument is left at [...]. *)
Definition pop (d : t) (key : string) (default : option (option V))
    : exn + (option V * t) :=
  let canon := _canonical d key in
  match default with
  | None =>
      match data d !! canon with
      | Some v => inr (Some v, mk (delete canon (data d)) (_aliases d))
      | None => inl (KeyError canon)
      end
  | Some dflt =>
      match data d !! canon with
      | Some v => inr (Some v, mk (delete canon (data d)) (_aliases d))
      | None => inr (dflt, d)
      end
  end.

(** [update]: [other] and [kwargs] are the items of the mappings, in
    order; an absent or empty [other] is skipped. *)
Definition setitems (d : t) (l : list (string * V)) : t :=
  foldl (fun d kv => __setitem__ d kv.1 kv.2) d l.

Definition update (d : t) (other : option (list (string * V)))
    (kwargs : list (string * V)) : t :=
  let d :=
    match other with
    | Some (kv :: l) => setitems d (kv :: l)
    | _ => d
    end in
  setitems d kwargs.

Definition __init__ (data0 : option (list (string * V)))
    (aliases : option (list (string * string))) : t :=
  let self :=
    mk ∅ (match aliases with Some (a :: l) => a :: l | _ => [] end) in
  match data0 with
  | Some (kv :: l) => update self (Some (kv :: l)) []
  | _ => self
  end.

Definition aliases_for (d : t) (canonical : string) : list string :=
  (filter (fun at_ => at_.2 = canonical) (_aliases d)).*1.

Definition canonical_for (d : t) (alias : string) : option string :=
  aliases_get (_aliases d) alias.

(** The value [update] leaves under the name of [key]: that of the last
    item whose key has the same canonical name. *)
Definition last_value (d : t) (l : list (string * V)) (key : string) : option V :=
  foldl (fun acc kv =>
           if decide (_canonical d kv.1 = _canonical d key) then Some kv.2 else acc)
    None l.

(** ** Properties of [AliasDict] *)

Lemma canonical_setitems (d : t) (l : list (string * V)) (key : string) :
  _aliases (setitems d l) = _aliases d ∧
  _canonical (setitems d l) key = _canonical d key.
Proof.
  revert d. induction l as [|kv l IH]; intros d; [done|].
  cbn [setitems foldl]. destruct (IH (__setitem__ d kv.1 kv.2)) as [E1 E2].
  unfold setitems in E1, E2. by rewrite E1, E2.
Qed.

Lemma getitem_setitem (d : t) (k1 k2 : string) (v : V) :
  __getitem__ (__setitem__ d k1 v) k2 =
    if decide (_canonical d k1 = _canonical d k2) then inr v else __getitem__ d k2.
Proof.
  unfold __getitem__, __setitem__, _canonical; cbn [data _aliases].
  destruct (decide _) as [E|E].
  - by rewrite E, lookup_insert_eq.
  - by rewrite lookup_insert_ne.
Qed.

Lemma getitem_setitems (d : t) (l : list (string * V)) (key : string) :
  __getitem__ (setitems d l) key =
    match last_value d l key with
    | Some v => inr v
    | None => __getitem__ d key
    end.
Proof.
  induction l as [|kv l IH] using rev_ind; [done|].
  unfold setitems, last_value in *. rewrite !foldl_app. cbn [foldl].
  rewrite getitem_setitem.
  destruct (canonical_setitems d l kv.1) as [_ E1].
  destruct (canonical_setitems d l key) as [_ E2].
  unfold setitems in E1, E2. rewrite E1, E2.
  destruct (decide _); [done|]. exact IH.
Qed.

Lemma aliases_get_Some (l : list (string * string)) (alias target : string) :
  NoDup l.*1 → aliases_get l alias = Some target ↔ (alias, target) ∈ l.
Proof.
  induction l as [|[a c] l IH]; intros Hnd; cbn [aliases_get].
  - split; [done|]. by intros ?%elem_of_nil.
  - cbn in Hnd. apply NoDup_cons in Hnd as [Hni Hnd].
    rewrite elem_of_cons. destruct (decide (a = alias)) as [->|Hne].
    + split.
      * intros [= ->]. by left.
      * intros [[= ->]|Hin]; [done|].
        exfalso. apply Hni. apply list_elem_of_fmap. by exists (alias, target).
    + rewrite IH by done. split; [by right|].
      intros [[= -> ->]|Hin]; [done|done].
Qed.

(** X12.  Writing through any name of a slot is read back through every name
    of that slot, and through no other: after [d[k1] = v], [d[k2]] is [v]
    when [k1] and [k2] have the same canonical name, and otherwise what it
    was before (a [KeyError] included); [k2 in d] changes accordingly. *)
Theorem setitem_then_getitem (d : t) (k1 k2 : string) (v : V) :
  __getitem__ (__setitem__ d k1 v) k2 =
    (if decide (_canonical d k1 = _canonical d k2) then inr v else __getitem__ d k2) ∧
  __contains__ (__setitem__ d k1 v) k2 =
    (bool_decide (_canonical d k1 = _canonical d k2) || __contains__ d k2) ∧
  get (__setitem__ d k1 v) k2 None =
    (if decide (_canonical d k1 = _canonical d k2) then Some v else get d k2 None).
Proof.
  split; [apply getitem_setitem|].
  unfold __contains__, get, __setitem__, _canonical; cbn [data _aliases].
  destruct (decide _) as [E|E].
  - rewrite E, lookup_insert_eq. rewrite (bool_decide_eq_true_2 (is_Some _)) by (by eexists).
    rewrite bool_decide_eq_true_2 by done. done.
  - rewrite lookup_insert_ne by done. by rewrite (bool_decide_eq_false_2 _ E).
Qed.

(** X13.  Aliases are resolved one step only.  When [a] is an alias of [b]
    and [b] is itself an alias of another name [c], writing through [a]
    stores the value under the key [b], which is not a canonical name: it is
    read back through [a], but reading through [b] looks under [c] and does
    not see it. *)
Theorem alias_chain_not_followed (d : t) (a b c : string) (v : V) :
  canonical_for d a = Some b →
  canonical_for d b = Some c →
  c ≠ b →
  data (__setitem__ d a v) !! b = Some v ∧
  __getitem__ (__setitem__ d a v) a = inr v ∧
  __getitem__ (__setitem__ d a v) b = __getitem__ d b.
Proof.
  unfold canonical_for. intros Ha Hb Hne.
  assert (Ea : _canonical d a = b) by (unfold _canonical; by rewrite Ha).
  assert (Eb : _canonical d b = c) by (unfold _canonical; by rewrite Hb).
  split_and!.
  - unfold __setitem__; cbn [data]. by rewrite Ea, lookup_insert_eq.
  - rewrite getitem_setitem. by rewrite decide_True.
  - rewrite getitem_setitem. rewrite decide_False; [done|]. by rewrite Ea, Eb.
Qed.

(** X14.  [del d[key]] raises [KeyError], with the canonical name, exactly
    when [key in d] is false, and then changes nothing; otherwise it
    removes the slot for every name of it and leaves the other slots and
    the aliases as they were. *)
Theorem delitem_removes_slot (d : t) (key : string) :
  match __delitem__ d key with
  | inl e => e = KeyError (_canonical d key) ∧ __contains__ d key = false
  | inr d' =>
      __contains__ d key = true ∧
      _aliases d' = _aliases d ∧
      ∀ k2, __getitem__ d' k2 =
              if decide (_canonical d k2 = _canonical d key)
              then inl (KeyError (_canonical d k2))
              else __getitem__ d k2
  end.
Proof.
  unfold __delitem__, __contains__.
  destruct (data d !! _canonical d key) as [v|] eqn:E.
  - split_and!; [by rewrite bool_decide_eq_true_2|done|].
    intros k2. unfold __getitem__, _canonical; cbn [data _aliases].
    destruct (decide _) as [E2|E2].
    + by rewrite E2, lookup_delete_eq.
    + by rewrite lookup_delete_ne.
  - split; [done|]. apply bool_decide_eq_false_2. by intros [? ?].
Qed.

(** X15.  [pop] is a read followed by a delete.  It raises only when no
    default is given and the key is absent, with the error of the delete;
    on a present key it returns the value [d[key]] and the dictionary
    [del d[key]] leaves; on an absent key with a default it returns the
    default and the dictionary unchanged. *)
Theorem pop_reads_then_deletes (d : t) (key : string) (default : option (option V)) :
  match pop d key default with
  | inl e => default = None ∧ __delitem__ d key = inl e ∧ __getitem__ d key = inl e
  | inr (r, d') =>
      (∃ v, r = Some v ∧ __getitem__ d key = inr v ∧ __delitem__ d key = inr d') ∨
      (default = Some r ∧ __contains__ d key = false ∧ d' = d)
  end.
Proof.
  unfold pop, __delitem__, __getitem__, __contains__.
  destruct default as [dflt|]; cbv zeta;
    destruct (data d !! _canonical d key) as [v|] eqn:E.
  - left. by exists v.
  - right. split_and!; [done| |done]. apply bool_decide_eq_false_2. by intros [? ?].
  - left. by exists v.
  - done.
Qed.

Lemma update_setitems (d : t) (other : option (list (string * V)))
    (kwargs : list (string * V)) :
  update d other kwargs = setitems d (default [] other ++ kwargs).
Proof.
  unfold update, setitems. rewrite foldl_app.
  by destruct other as [[|kv l]|].
Qed.

Lemma init_setitems (data0 : option (list (string * V)))
    (aliases : option (list (string * string))) :
  __init__ data0 aliases = setitems (__init__ None aliases) (default [] data0).
Proof.
  unfold __init__. destruct data0 as [[|kv l]|]; [done| |done].
  rewrite update_setitems. by rewrite List.app_nil_r.
Qed.

(** X16.  [update] and the constructor write item by item, so for every
    name the last item whose key has the same canonical name wins: after
    [d.update(other, **kwargs)], [d[key]] is the value of the last such
    item of [other] followed by [kwargs], and what it was before when there
    is none; a dictionary built from [data] and [aliases] has the value of
    the last such item of [data], and raises [KeyError] when there is
    none. *)
Theorem update_last_item_wins (d : t) (other data0 : option (list (string * V)))
    (aliases : option (list (string * string))) (kwargs : list (string * V))
    (key : string) :
  __getitem__ (update d other kwargs) key =
    match last_value d (default [] other ++ kwargs) key with
    | Some v => inr v
    | None => __getitem__ d key
    end ∧
  __getitem__ (__init__ data0 aliases) key =
    match last_value (__init__ None aliases) (default [] data0) key with
    | Some v => inr v
    | None => inl (KeyError (_canonical (__init__ None aliases) key))
    end.
Proof.
  split.
  - rewrite update_setitems. apply getitem_setitems.
  - rewrite init_setitems, getitem_setitems.
    destruct (last_value _ _ _); [done|].
    unfold __getitem__, __init__; cbn [data]. by rewrite lookup_empty.
Qed.

(** X17.  [aliases_for] and [canonical_for] are inverse views of the alias
    table: an alias is listed for a target exactly when [canonical_for]
    maps it to that target, no alias is listed twice, and every listed
    alias resolves to the target. *)
Theorem aliases_for_inverts_canonical_for (d : t) (alias target : string) :
  NoDup (_aliases d).*1 →
  (alias ∈ aliases_for d target ↔ canonical_for d alias = Some target) ∧
  NoDup (aliases_for d target) ∧
  (alias ∈ aliases_for d target → _canonical d alias = target).
Proof.
  intros Hnd.
  assert (Hiff : alias ∈ aliases_for d target ↔ canonical_for d alias = Some target).
  { unfold aliases_for, canonical_for. rewrite aliases_get_Some by done.
    rewrite list_elem_of_fmap. split.
    - intros [[a c] [-> [Hc Hin]%list_elem_of_filter]]. cbn in Hc. by subst c.
    - intros Hin. exists (alias, target). split; [done|].
      by apply list_elem_of_filter. }
  split_and!; [done| |].
  - unfold aliases_for. clear Hiff. induction (_aliases d) as [|[a c] l IH]; [constructor|].
    cbn in Hnd. apply NoDup_cons in Hnd as [Hni Hnd].
    rewrite filter_cons. destruct (decide _); [|by apply IH].
    cbn. apply NoDup_cons. split; [|by apply IH].
    intros [[a' c'] [E [_ Hin]%list_elem_of_filter]]%list_elem_of_fmap.
    cbn in E. subst a'. apply Hni. apply list_elem_of_fmap. by exists (a, c').
  - intros Hin%Hiff. unfold canonical_for in Hin. unfold _canonical. by rewrite Hin.
Qed.

End AliasDict.

Lemma alias_chain_not_followed_witness :
  canonical_for (__init__ (V:=nat) None (Some [("a", "b"); ("b", "c")])) "a" = Some "b" ∧
  canonical_for (__init__ (V:=nat) None (Some [("a", "b"); ("b", "c")])) "b" = Some "c" ∧
  "c" ≠ "b" ∧
  data (__setitem__ (__init__ None (Some [("a", "b"); ("b", "c")])) "a" 1) !! "b"
    = Some 1 ∧
  __getitem__ (__setitem__ (__init__ None (Some [("a", "b"); ("b", "c")])) "a" 1) "a"
    = inr 1 ∧
  __getitem__ (__setitem__ (__init__ None (Some [("a", "b"); ("b", "c")])) "a" 1) "b"
    = __getitem__ (__init__ None (Some [("a", "b"); ("b", "c")])) "b".
Proof.
  assert (Hne : "c" ≠ "b") by discriminate.
  split; [reflexivity|]. split; [reflexivity|]. split; [exact Hne|].
  exact (alias_chain_not_followed (__init__ None (Some [("a", "b"); ("b", "c")]))
           "a" "b" "c" 1 eq_refl eq_refl Hne).
Defined.

Lemma aliases_for_inverts_canonical_for_witness :
  NoDup (_aliases (__init__ (V:=nat) None (Some [("x", "k"); ("y", "k"); ("z", "m")]))).*1 ∧
  ("y" ∈ aliases_for (__init__ (V:=nat) None (Some [("x", "k"); ("y", "k"); ("z", "m")])) "k"
     ↔ canonical_for (__init__ (V:=nat) None (Some [("x", "k"); ("y", "k"); ("z", "m")])) "y"
         = Some "k") ∧
  NoDup (aliases_for (__init__ (V:=nat) None (Some [("x", "k"); ("y", "k"); ("z", "m")])) "k") ∧
  ("y" ∈ aliases_for (__init__ (V:=nat) None (Some [("x", "k"); ("y", "k"); ("z", "m")])) "k"
     → _canonical (__init__ (V:=nat) None (Some [("x", "k"); ("y", "k"); ("z", "m")])) "y"
         = "k").
Proof.
  assert (Hnd : NoDup (_aliases
    (__init__ (V:=nat) None (Some [("x", "k"); ("y", "k"); ("z", "m")]))).*1).
  { apply (bool_decide_unpack _). vm_compute. exact I. }
  split; [exact Hnd|].
  exact (aliases_for_inverts_canonical_for
           (__init__ None (Some [("x", "k"); ("y", "k"); ("z", "m")])) "y" "k" Hnd).
Defined.

End AliasDict.

(** * ReversibleMap: a dictionary with a reverse index by identity hash

    Shallow embedding of [extended_containers/reversible_map.py].  The
    entries of the dictionary are the list of its items in insertion order,
    which is the order in which [update] and the constructor fill the
    reverse index.  [identity] is the property of the [Reversible] protocol
    and [hash] is Python's [hash] on identity values. *)

Module ReversibleMap.

Section ReversibleMap.

Context {K : Type} `{EqDecision K} {R RK : Type}.
Variable identity : R → RK.
Variable hash : RK → Z.

Inductive error :=
| KeyError (k : K)            (* raised by the dictionary of entries *)
| KeyError_hashed (h : Z).    (* raised by [_reversed] *)

Record t := mk {
  data : list (K * R);        (* the items of the [dict], in order *)
  _reversed : gmap Z K
}.

(** The built-in dictionary on its list of items. *)
Fixpoint dict_get (l : list (K * R)) (key : K) : option R :=
  match l with
  | [] => None
  | (k, v) :: l' => if decide (k = key) then Some v else dict_get l' key
  end.

Fixpoint dict_set (l : list (K * R)) (key : K) (value : R) : list (K * R) :=
  match l with
  | [] => [(key, value)]
  | (k, v) :: l' =>
      if decide (k = key) then (k, value) :: l' else (k, v) :: dict_set l' key value
  end.

Fixpoint dict_del (l : list (K * R)) (key : K) : list (K * R) :=
  match l with
  | [] => []
  | (k, v) :: l' => if decide (k = key) then l' else (k, v) :: dict_del l' key
  end.

Definition dict_update (l other : list (K * R)) : list (K * R) :=
  foldl (fun l kv => dict_set l kv.1 kv.2) l other.

(** [HashedKey(hash(v.identity))] *)
Definition hashed (v : R) : Z := hash (identity v).

(** [for k, v in items: reversed[HashedKey(hash(v.identity))] = k] *)
Definition index_items (m : gmap Z K) (l : list (K * R)) : gmap Z K :=
  foldl (fun m kv => <[hashed kv.2 := kv.1]> m) m l.

Definition __init__ (args : list (K * R)) : t :=
  let self := dict_update [] args in
  mk self (index_items ∅ self).

Definition __setitem__ (d : t) (key : K) (value : R) : t :=
  mk (dict_set (data d) key value) (<[hashed value := key]> (_reversed d)).

(** [__delitem__] returns the dictionary it leaves beside the error: the
    entry is removed before the reverse index is touched. *)
Definition __delitem__ (d : t) (key : K) : t * option error :=
  match dict_get (data d) key with
  | None => (d, Some (KeyError key))
  | Some value =>
      let d1 := mk (dict_del (data d) key) (_reversed d) in
      match _reversed d !! hashed value with
      | Some _ => (mk (data d1) (delete (hashed value) (_reversed d)), None)
      | None => (d1, Some (KeyError_hashed (hashed value)))
      end
  end.

Definition update (d : t) (args : list (K * R)) : t :=
  let self := dict_update (data d) args in
  mk self (index_items (_reversed d) self).

Definition __ior__ (d : t) (other : list (K * R)) : t := update d other.

(** [rget]: the argument is a value, which has an [identity], or an
    identity value itself. *)
Definition rget (d : t) (key : R + RK) : error + K :=
  let hv := match key with inl r => hash (identity r) | inr i => hash i end in
  match _reversed d !! hv with
  | Some k => inr k
  | None => inl (KeyError_hashed hv)
  end.

(** The reverse index finds the key of every entry. *)
Definition reversible (d : t) : Prop :=
  ∀ k v, dict_get (data d) k = Some v → rget d (inl v) = inr k.

(** No two entries have values with the same identity hash. *)
Definition distinct (l : list (K * R)) : Prop :=
  ∀ k1 v1 k2 v2,
    dict_get l k1 = Some v1 → dict_get l k2 = Some v2 →
    hashed v1 = hashed v2 → k1 = k2.

(** The list is the list of items of a dictionary: no key twice. *)
Definition is_dict (l : list (K * R)) : Prop := NoDup l.*1.

(** ** Properties of [ReversibleMap] *)

Lemma dict_get_set (l : list (K * R)) (key key' : K) (value : R) :
  dict_get (dict_set l key value) key' =
    if decide (key' = key) then Some value else dict_get l key'.
Proof.
  induction l as [|[k v] l IH]; cbn [dict_set dict_get].
  - destruct (decide (key = key')), (decide (key' = key)); congruence.
  - destruct (decide (k = key)) as [->|Hk]; cbn [dict_get].
    + destruct (decide (key = key')), (decide (key' = key)); congruence.
    + destruct (decide (k = key')) as [->|Hk']; [|done].
      by rewrite decide_False.
Qed.

Lemma dict_set_keys (l : list (K * R)) (key k : K) (value : R) :
  k ∈ (dict_set l key value).*1 ↔ k = key ∨ k ∈ l.*1.
Proof.
  induction l as [|[k' v'] l IH]; cbn [dict_set].
  - cbn. rewrite list_elem_of_singleton, elem_of_nil. tauto.
  - destruct (decide (k' = key)) as [->|Hk]; cbn; rewrite !elem_of_cons.
    + tauto.
    + rewrite IH. tauto.
Qed.

Lemma is_dict_set (l : list (K * R)) (key : K) (value : R) :
  is_dict l → is_dict (dict_set l key value).
Proof.
  unfold is_dict. induction l as [|[k v] l IH]; cbn [dict_set]; intros Hnd.
  - cbn. apply NoDup_singleton.
  - cbn in Hnd. apply NoDup_cons in Hnd as [Hni Hnd].
    destruct (decide (k = key)) as [->|Hk]; cbn.
    + by apply NoDup_cons.
    + apply NoDup_cons. split; [|by apply IH].
      rewrite dict_set_keys. intros [?|?]; [done|done].
Qed.

Lemma is_dict_update (l other : list (K * R)) :
  is_dict l → is_dict (dict_update l other).
Proof.
  revert l. induction other as [|kv other IH]; intros l Hl; [done|].
  cbn. apply IH. by apply is_dict_set.
Qed.

Lemma dict_get_None (l : list (K * R)) (key : K) :
  key ∉ l.*1 → dict_get l key = None.
Proof.
  induction l as [|[k v] l IH]; [done|]. cbn. rewrite not_elem_of_cons.
  intros [Hne Hni]. rewrite decide_False by done. by apply IH.
Qed.

Lemma dict_get_del (l : list (K * R)) (key key' : K) :
  is_dict l →
  dict_get (dict_del l key) key' =
    if decide (key' = key) then None else dict_get l key'.
Proof.
  unfold is_dict. induction l as [|[k v] l IH]; cbn [dict_del dict_get]; intros Hnd.
  - by destruct (decide _).
  - cbn in Hnd. apply NoDup_cons in Hnd as [Hni Hnd].
    destruct (decide (k = key)) as [->|Hk].
    + destruct (decide (key' = key)) as [->|Hne].
      * by apply dict_get_None.
      * by rewrite decide_False.
    + cbn [dict_get]. destruct (decide (k = key')) as [->|Hk'].
      * by rewrite decide_False.
      * by apply IH.
Qed.

Lemma dict_del_keys (l : list (K * R)) (key k : K) :
  k ∈ (dict_del l key).*1 → k ∈ l.*1.
Proof.
  induction l as [|[k' v'] l IH]; [done|]. cbn [dict_del].
  destruct (decide (k' = key)); cbn.
  - intros Hin. by right.
  - rewrite !elem_of_cons. intros [->|Hin]; [by left|]. right. by apply IH.
Qed.

Lemma is_dict_del (l : list (K * R)) (key : K) :
  is_dict l → is_dict (dict_del l key).
Proof.
  unfold is_dict. induction l as [|[k v] l IH]; [done|]. intros Hd.
  cbn in Hd. apply NoDup_cons in Hd as [Hni Hd]. cbn [dict_del].
  destruct (decide (k = key)); [done|]. cbn. apply NoDup_cons. split; [|by apply IH].
  intros Hin. by apply Hni, (dict_del_keys l key).
Qed.

Lemma dict_get_elem (l : list (K * R)) (key : K) (value : R) :
  is_dict l → (key, value) ∈ l → dict_get l key = Some value.
Proof.
  unfold is_dict. induction l as [|[k v] l IH]; intros Hnd Hin.
  - by apply elem_of_nil in Hin.
  - cbn in Hnd. apply NoDup_cons in Hnd as [Hni Hnd]. cbn [dict_get].
    apply elem_of_cons in Hin as [[= -> ->]|Hin].
    + by rewrite decide_True.
    + rewrite decide_False; [by apply IH|].
      intros ->. apply Hni. apply list_elem_of_fmap. by exists (key, value).
Qed.

Lemma elem_dict_get (l : list (K * R)) (key : K) (value : R) :
  dict_get l key = Some value → (key, value) ∈ l.
Proof.
  induction l as [|[k v] l IH]; [done|]. cbn [dict_get].
  destruct (decide (k = key)) as [->|Hk].
  - intros [= ->]. by left.
  - intros H. right. by apply IH.
Qed.

Lemma index_items_lookup (m : gmap Z K) (l : list (K * R)) (key : K) (value : R) :
  is_dict l → distinct l → (key, value) ∈ l →
  index_items m l !! hashed value = Some key.
Proof.
  intros Hd Hdist Hin.
  assert (Hsub : ∀ l1 l2, l = (l1 ++ l2)%list → (key, value) ∈ l1 →
                 index_items m l1 !! hashed value = Some key).
  { clear Hin. intros l1. induction l1 as [|[k v] l1 IH] using rev_ind; intros l2 El Hin.
    - by apply elem_of_nil in Hin.
    - unfold index_items in *. rewrite foldl_app. cbn [foldl fst snd].
      destruct (decide (hashed v = hashed value)) as [Eh|Eh].
      + rewrite Eh, lookup_insert_eq. f_equal.
        apply (Hdist k v key value); [| |done].
        * apply dict_get_elem; [done|]. rewrite El.
          rewrite !elem_of_app, list_elem_of_singleton. by left; right.
        * apply dict_get_elem; [done|]. rewrite El.
          rewrite elem_of_app. by left.
      + rewrite lookup_insert_ne by done.
        apply (IH ([(k, v)] ++ l2)%list).
        * by rewrite El, <- List.app_assoc.
        * apply elem_of_app in Hin as [Hin|Hin]; [done|].
          apply list_elem_of_singleton in Hin. by injection Hin as -> ->. }
  apply (Hsub l []); [by rewrite List.app_nil_r|done].
Qed.

Lemma reversible_distinct (d : t) : reversible d → distinct (data d).
Proof.
  intros Hr k1 v1 k2 v2 H1 H2 Eh.
  apply Hr in H1. apply Hr in H2. unfold rget, hashed in *. rewrite Eh in H1.
  destruct (_reversed d !! hash (identity v2)); congruence.
Qed.

(** X18.  A write is found back: after [d[key] = value], [rget] of the
    value, and of its identity, is [key], and [d[key]] is the value; [rget]
    of anything with another identity hash is what it was before. *)
Theorem setitem_then_rget (d : t) (key : K) (value : R) (x : R + RK) :
  rget (__setitem__ d key value) (inl value) = inr key ∧
  rget (__setitem__ d key value) (inr (identity value)) = inr key ∧
  dict_get (data (__setitem__ d key value)) key = Some value ∧
  (match x with inl r => hash (identity r) | inr i => hash i end ≠ hashed value →
   rget (__setitem__ d key value) x = rget d x).
Proof.
  unfold rget, __setitem__, hashed; cbn [data _reversed]. split_and!.
  - by rewrite lookup_insert_eq.
  - by rewrite lookup_insert_eq.
  - rewrite dict_get_set. by rewrite decide_True.
  - intros Hne. by rewrite lookup_insert_ne.
Qed.

(** X19.  [d[key] = value] keeps the reverse index exact when the identity
    hash of the value is not that of the value of another key: if [rget]
    found the key of every entry before, it does so afterwards. *)
Theorem setitem_keeps_reversible (d : t) (key : K) (value : R) :
  reversible d →
  (∀ k v, dict_get (data d) k = Some v → k ≠ key → hashed v ≠ hashed value) →
  reversible (__setitem__ d key value).
Proof.
  intros Hr Hfresh k v. unfold __setitem__, rget; cbn [data _reversed].
  rewrite dict_get_set. destruct (decide (k = key)) as [->|Hk].
  - intros [= <-]. fold (hashed value). by rewrite lookup_insert_eq.
  - intros Hg. fold (hashed v). rewrite lookup_insert_ne.
    + apply Hr in Hg. exact Hg.
    + intros E. by apply (Hfresh k v Hg Hk).
Qed.

(** X20.  With an exact reverse index, [del d[key]] of a present key does
    not raise, removes the entry and its reverse entry, and keeps the
    reverse index exact for the entries that remain. *)
Theorem delitem_keeps_reversible (d : t) (key : K) (value : R) :
  is_dict (data d) → reversible d →
  dict_get (data d) key = Some value →
  (__delitem__ d key).2 = None ∧
  dict_get (data (__delitem__ d key).1) key = None ∧
  rget (__delitem__ d key).1 (inl value) = inl (KeyError_hashed (hashed value)) ∧
  is_dict (data (__delitem__ d key).1) ∧
  reversible (__delitem__ d key).1.
Proof.
  intros Hd Hr Hg. pose proof (Hr _ _ Hg) as Hrv.
  unfold __delitem__. rewrite Hg. cbv zeta. unfold rget in Hrv. fold (hashed value) in Hrv.
  destruct (_reversed d !! hashed value) as [k0|] eqn:E; [|done].
  cbn [fst snd data _reversed]. split_and!.
  - done.
  - rewrite dict_get_del by done. by rewrite decide_True.
  - unfold rget; cbn [_reversed]. fold (hashed value). by rewrite lookup_delete_eq.
  - by apply is_dict_del.
  - intros k v. cbn [data]. rewrite dict_get_del by done.
    destruct (decide (k = key)) as [->|Hk]; [done|]. intros Hg'.
    pose proof (Hr _ _ Hg') as Hrv'. unfold rget in *; cbn [_reversed].
    fold (hashed v) in *. rewrite lookup_delete_ne; [done|].
    intros Eh. apply Hk. symmetry.
    by apply (reversible_distinct d Hr key value k v).
Qed.

(** X21.  [update] and the constructor rebuild the reverse index from all
    the entries: whatever the reverse index held before, when no two
    entries of the result have values with the same identity hash, [rget]
    finds the key of every entry of the result. *)
Theorem update_makes_reversible (d : t) (args : list (K * R)) :
  is_dict (data d) →
  (distinct (data (update d args)) → reversible (update d args)) ∧
  (distinct (data (__ior__ d args)) → reversible (__ior__ d args)) ∧
  (distinct (data (__init__ args)) → reversible (__init__ args)).
Proof.
  intros Hd.
  assert (H : ∀ m l, is_dict l → distinct l → reversible (mk l (index_items m l))).
  { intros m l Hl Hdist k v Hg. cbn [data] in Hg. unfold rget; cbn [_reversed].
    fold (hashed v). rewrite (index_items_lookup m l k v Hl Hdist); [done|].
    by apply elem_dict_get. }
  split_and!; intros Hdist; apply H; try done.
  - by apply is_dict_update.
  - by apply is_dict_update.
  - apply is_dict_update. apply NoDup_nil_2.
Qed.

(** X22.  An overwrite leaves a stale reverse entry.  After [d[key] = v1]
    and then [d[key] = v2] with another identity hash, [rget(v1)] still
    returns [key] although [d[key]] is [v2]; and after [del d[key]], which
    does not raise, [rget(v1)] still returns [key] although the key is
    gone. *)
Theorem overwrite_leaves_stale_reverse_entry (d : t) (key : K) (v1 v2 : R) :
  is_dict (data d) → hashed v1 ≠ hashed v2 →
  dict_get (data (__setitem__ (__setitem__ d key v1) key v2)) key = Some v2 ∧
  rget (__setitem__ (__setitem__ d key v1) key v2) (inl v1) = inr key ∧
  (__delitem__ (__setitem__ (__setitem__ d key v1) key v2) key).2 = None ∧
  dict_get (data (__delitem__ (__setitem__ (__setitem__ d key v1) key v2) key).1) key
    = None ∧
  rget (__delitem__ (__setitem__ (__setitem__ d key v1) key v2) key).1 (inl v1)
    = inr key.
Proof.
  intros Hd Hne.
  assert (Hg : dict_get (data (__setitem__ (__setitem__ d key v1) key v2)) key = Some v2).
  { cbn [__setitem__ data]. rewrite dict_get_set. by rewrite decide_True. }
  assert (Hr : rget (__setitem__ (__setitem__ d key v1) key v2) (inl v1) = inr key).
  { unfold rget, __setitem__; cbn [_reversed]. fold (hashed v1).
    rewrite lookup_insert_ne by done. by rewrite lookup_insert_eq. }
  split; [done|]. split; [done|].
  unfold __delitem__. rewrite Hg. cbv zeta. cbn [__setitem__ _reversed data].
  rewrite lookup_insert_eq. cbn [fst snd data]. split_and!.
  - done.
  - rewrite dict_get_del by (by do 2 apply is_dict_set). by rewrite decide_True.
  - unfold rget; cbn [_reversed]. fold (hashed v1).
    rewrite lookup_delete_ne by done. rewrite lookup_insert_ne by done.
    by rewrite lookup_insert_eq.
Qed.

(** X23.  Two keys whose values have the same identity hash share one
    reverse entry.  After [d[k1] = v1; d[k2] = v2], [del d[k1]] does not
    raise but removes the shared reverse entry: [rget(v2)] raises although
    [d[k2]] is still [v2]; and [del d[k2]] then raises [KeyError] for the
    hash after it has removed the entry [k2]. *)
Theorem delitem_shared_identity (d : t) (k1 k2 : K) (v1 v2 : R) :
  is_dict (data d) → k1 ≠ k2 → hashed v1 = hashed v2 →
  let d2 := __setitem__ (__setitem__ d k1 v1) k2 v2 in
  let d3 := (__delitem__ d2 k1).1 in
  (__delitem__ d2 k1).2 = None ∧
  dict_get (data d3) k2 = Some v2 ∧
  rget d3 (inl v2) = inl (KeyError_hashed (hashed v2)) ∧
  (__delitem__ d3 k2).2 = Some (KeyError_hashed (hashed v2)) ∧
  dict_get (data (__delitem__ d3 k2).1) k2 = None.
Proof.
  intros Hd Hk Eh d2 d3.
  assert (Hd2 : is_dict (data d2)) by (by do 2 apply is_dict_set).
  assert (Hg1 : dict_get (data d2) k1 = Some v1).
  { subst d2. cbn [__setitem__ data]. rewrite !dict_get_set.
    rewrite decide_False by done. by rewrite decide_True. }
  assert (E3 : __delitem__ d2 k1
               = (mk (dict_del (data d2) k1) (delete (hashed v1) (_reversed d2)), None)).
  { unfold __delitem__. rewrite Hg1. cbv zeta. subst d2. cbn [__setitem__ _reversed data].
    by rewrite Eh, lookup_insert_eq. }
  assert (Hg2 : dict_get (data d3) k2 = Some v2).
  { subst d3. rewrite E3. cbn [fst data]. rewrite dict_get_del by done.
    rewrite decide_False by done. subst d2. cbn [__setitem__ data].
    rewrite dict_get_set. by rewrite decide_True. }
  assert (Hrev : _reversed d3 !! hashed v2 = None).
  { subst d3. rewrite E3. cbn [fst _reversed]. by rewrite Eh, lookup_delete_eq. }
  split_and!.
  - by rewrite E3.
  - done.
  - unfold rget. fold (hashed v2). by rewrite Hrev.
  - unfold __delitem__. by rewrite Hg2, Hrev.
  - unfold __delitem__. rewrite Hg2, Hrev. cbn [fst data].
    rewrite dict_get_del; [by rewrite decide_True|].
    subst d3. rewrite E3. cbn [fst data].
    by apply is_dict_del.
Qed.

End ReversibleMap.

(** The theorems at a map from names to (label, identity) pairs, whose
    identity is the second component and is hashed to itself. *)

Lemma setitem_keeps_reversible_witness :
  reversible snd Z.of_nat (__init__ snd Z.of_nat [("a", ("x", 1))]) ∧
  (∀ k v, dict_get (data (__init__ snd Z.of_nat [("a", ("x", 1))])) k = Some v →
          k ≠ "b" → hashed snd Z.of_nat v ≠ hashed snd Z.of_nat ("y", 2)) ∧
  reversible snd Z.of_nat
    (__setitem__ snd Z.of_nat (__init__ snd Z.of_nat [("a", ("x", 1))]) "b" ("y", 2)).
Proof.
  assert (Hr : reversible snd Z.of_nat (__init__ snd Z.of_nat [("a", ("x", 1))])).
  { intros k v Hg. cbn in Hg. destruct (decide ("a" = k)) as [<-|]; [|done].
    injection Hg as <-. reflexivity. }
  assert (Hf : ∀ k v,
    dict_get (data (__init__ snd Z.of_nat [("a", ("x", 1))])) k = Some v →
    k ≠ "b" → hashed snd Z.of_nat v ≠ hashed snd Z.of_nat ("y", 2)).
  { intros k v Hg _. cbn in Hg. destruct (decide ("a" = k)) as [<-|]; [|done].
    injection Hg as <-. discriminate. }
  split; [exact Hr|]. split; [exact Hf|].
  exact (setitem_keeps_reversible snd Z.of_nat
           (__init__ snd Z.of_nat [("a", ("x", 1))]) "b" ("y", 2) Hr Hf).
Defined.

Lemma delitem_keeps_reversible_witness :
  is_dict (data (__init__ snd Z.of_nat [("a", ("x", 1))])) ∧
  reversible snd Z.of_nat (__init__ snd Z.of_nat [("a", ("x", 1))]) ∧
  dict_get (data (__init__ snd Z.of_nat [("a", ("x", 1))])) "a" = Some ("x", 1) ∧
  (__delitem__ snd Z.of_nat (__init__ snd Z.of_nat [("a", ("x", 1))]) "a").2 = None ∧
  dict_get
    (data (__delitem__ snd Z.of_nat (__init__ snd Z.of_nat [("a", ("x", 1))]) "a").1)
    "a" = None ∧
  rget snd Z.of_nat
    (__delitem__ snd Z.of_nat (__init__ snd Z.of_nat [("a", ("x", 1))]) "a").1
    (inl ("x", 1)) = inl (KeyError_hashed (hashed snd Z.of_nat ("x", 1))) ∧
  is_dict
    (data (__delitem__ snd Z.of_nat (__init__ snd Z.of_nat [("a", ("x", 1))]) "a").1) ∧
  reversible snd Z.of_nat
    (__delitem__ snd Z.of_nat (__init__ snd Z.of_nat [("a", ("x", 1))]) "a").1.
Proof.
  assert (Hd : is_dict (data (__init__ snd Z.of_nat [("a", ("x", 1))]))).
  { apply (bool_decide_unpack _). vm_compute. exact I. }
  assert (Hr : reversible snd Z.of_nat (__init__ snd Z.of_nat [("a", ("x", 1))])).
  { intros k v Hg. cbn in Hg. destruct (decide ("a" = k)) as [<-|]; [|done].
    injection Hg as <-. reflexivity. }
  split; [exact Hd|]. split; [exact Hr|]. split; [reflexivity|].
  exact (delitem_keeps_reversible snd Z.of_nat
           (__init__ snd Z.of_nat [("a", ("x", 1))]) "a" ("x", 1) Hd Hr eq_refl).
Defined.

Lemma update_makes_reversible_witness :
  is_dict (data (__init__ snd Z.of_nat [("a", ("x", 1))])) ∧
  distinct snd Z.of_nat
    (data (update snd Z.of_nat (__init__ snd Z.of_nat [("a", ("x", 1))])
             [("b", ("y", 2))])) ∧
  reversible snd Z.of_nat
    (update snd Z.of_nat (__init__ snd Z.of_nat [("a", ("x", 1))])
       [("b", ("y", 2))]).
Proof.
  assert (Hd : is_dict (data (__init__ snd Z.of_nat [("a", ("x", 1))]))).
  { apply (bool_decide_unpack _). vm_compute. exact I. }
  assert (Hdist : distinct snd Z.of_nat
    (data (update snd Z.of_nat (__init__ snd Z.of_nat [("a", ("x", 1))])
             [("b", ("y", 2))]))).
  { intros k1 v1 k2 v2 H1 H2 Eh.
    apply elem_dict_get in H1. apply elem_dict_get in H2.
    change (data (update snd Z.of_nat (__init__ snd Z.of_nat [("a", ("x", 1))])
                    [("b", ("y", 2))]))
      with [("a", ("x", 1)); ("b", ("y", 2))] in H1, H2.
    rewrite !elem_of_cons, elem_of_nil in H1, H2.
    destruct H1 as [H1|[H1|[]]]; destruct H2 as [H2|[H2|[]]];
      injection H1 as -> ->; injection H2 as -> ->;
      first [reflexivity | discriminate Eh]. }
  split; [exact Hd|]. split; [exact Hdist|].
  exact (proj1 (update_makes_reversible snd Z.of_nat
                  (__init__ snd Z.of_nat [("a", ("x", 1))]) [("b", ("y", 2))] Hd)
           Hdist).
Defined.

Lemma overwrite_leaves_stale_reverse_entry_witness :
  is_dict (data (mk (K:=string) (R:=string * nat) [] ∅)) ∧
  hashed snd Z.of_nat ("x", 1) ≠ hashed snd Z.of_nat ("y", 2) ∧
  dict_get
    (data (__setitem__ snd Z.of_nat (__setitem__ snd Z.of_nat (mk [] ∅) "a" ("x", 1))
             "a" ("y", 2))) "a" = Some ("y", 2) ∧
  rget snd Z.of_nat
    (__setitem__ snd Z.of_nat (__setitem__ snd Z.of_nat (mk [] ∅) "a" ("x", 1))
       "a" ("y", 2)) (inl ("x", 1)) = inr "a" ∧
  (__delitem__ snd Z.of_nat
     (__setitem__ snd Z.of_nat (__setitem__ snd Z.of_nat (mk [] ∅) "a" ("x", 1))
        "a" ("y", 2)) "a").2 = None ∧
  dict_get
    (data (__delitem__ snd Z.of_nat
             (__setitem__ snd Z.of_nat (__setitem__ snd Z.of_nat (mk [] ∅) "a" ("x", 1))
                "a" ("y", 2)) "a").1) "a" = None ∧
  rget snd Z.of_nat
    (__delitem__ snd Z.of_nat
       (__setitem__ snd Z.of_nat (__setitem__ snd Z.of_nat (mk [] ∅) "a" ("x", 1))
          "a" ("y", 2)) "a").1 (inl ("x", 1)) = inr "a".
Proof.
  assert (Hd : is_dict (data (mk (K:=string) (R:=string * nat) [] ∅)))
    by apply NoDup_nil_2.
  assert (Hne : hashed snd Z.of_nat ("x", 1) ≠ hashed snd Z.of_nat ("y", 2))
    by discriminate.
  split; [exact Hd|]. split; [exact Hne|].
  exact (overwrite_leaves_stale_reverse_entry snd Z.of_nat (mk [] ∅)
           "a" ("x", 1) ("y", 2) Hd Hne).
Defined.

Lemma delitem_shared_identity_witness :
  is_dict (data (mk (K:=string) (R:=string * nat) [] ∅)) ∧
  "a" ≠ "b" ∧
  hashed snd Z.of_nat ("x", 1) = hashed snd Z.of_nat ("y", 1) ∧
  (__delitem__ snd Z.of_nat
     (__setitem__ snd Z.of_nat (__setitem__ snd Z.of_nat (mk [] ∅) "a" ("x", 1))
        "b" ("y", 1)) "a").2 = None ∧
  dict_get
    (data (__delitem__ snd Z.of_nat
             (__setitem__ snd Z.of_nat (__setitem__ snd Z.of_nat (mk [] ∅) "a" ("x", 1))
                "b" ("y", 1)) "a").1) "b" = Some ("y", 1) ∧
  rget snd Z.of_nat
    (__delitem__ snd Z.of_nat
       (__setitem__ snd Z.of_nat (__setitem__ snd Z.of_nat (mk [] ∅) "a" ("x", 1))
          "b" ("y", 1)) "a").1 (inl ("y", 1))
    = inl (KeyError_hashed (hashed snd Z.of_nat ("y", 1))) ∧
  (__delitem__ snd Z.of_nat
     (__delitem__ snd Z.of_nat
        (__setitem__ snd Z.of_nat (__setitem__ snd Z.of_nat (mk [] ∅) "a" ("x", 1))
           "b" ("y", 1)) "a").1 "b").2
    = Some (KeyError_hashed (hashed snd Z.of_nat ("y", 1))) ∧
  dict_get
    (data (__delitem__ snd Z.of_nat
             (__delitem__ snd Z.of_nat
                (__setitem__ snd Z.of_nat
                   (__setitem__ snd Z.of_nat (mk [] ∅) "a" ("x", 1))
                   "b" ("y", 1)) "a").1 "b").1) "b" = None.
Proof.
  assert (Hd : is_dict (data (mk (K:=string) (R:=string * nat) [] ∅)))
    by apply NoDup_nil_2.
  assert (Hk : "a" ≠ "b") by discriminate.
  split; [exact Hd|]. split; [exact Hk|]. split; [reflexivity|].
  exact (delitem_shared_identity snd Z.of_nat (mk [] ∅)
           "a" "b" ("x", 1) ("y", 1) Hd Hk eq_refl).
Defined.

End ReversibleMap.

(** * TypedList: a list that checks the type of what is added or removed

    Shallow embedding of [remove], [extend] and [_check_param] of
    [extended_containers/typed_list.py].  [valid x] is
    [isinstance(x, ValidType)] for the type that [get_generic_types] finds
    by reflection; the reflection itself is outside the model.  A parameter
    is one item that is not an [Iterable], a collection that yields its
    items every time it is iterated, or an iterator, which yields them
    once: [_check_param] hands back the object it has iterated. *)

Module TypedList.

Section TypedList.

Context {obj : Type} `{EqDecision obj}.
Variable valid : obj → bool.

Inductive error :=
| TypeError (x : obj)
| ValueError.

Inductive param :=
| Single (x : obj)        (* one item, not an [Iterable] *)
| Many (l : list obj)     (* a list, tuple or set, other than the list itself *)
| Once (l : list obj).    (* an iterator or generator with these items left *)

(** What iterating [p if isinstance(p, Iterable) else (p,)] yields. *)
Definition iterable (p : param) : list obj :=
  match p with
  | Single x => [x]
  | Many l => l
  | Once l => l
  end.

(** [p if isinstance(p, Iterable) else (p,)] once it has been iterated to
    the end: the same object, and an iterator has nothing left. *)
Definition iterated (p : param) : param :=
  match p with
  | Single x => Many [x]
  | Many l => Many l
  | Once _ => Once []
  end.

Fixpoint check_items (_p : list obj) : option error :=
  match _p with
  | [] => None
  | _i :: rest => if valid _i then check_items rest else Some (TypeError _i)
  end.

Definition _check_param (p : param) : error + param :=
  match check_items (iterable p) with
  | Some e => inl e
  | None => inr (iterated p)
  end.

(** [list.remove(x)]: removes the first item equal to [x], [ValueError]
    when there is none. *)
Fixpoint list_remove (self : list obj) (x : obj) : list obj * option error :=
  match self with
  | [] => ([], Some ValueError)
  | y :: rest =>
      if decide (y = x) then (rest, None)
      else let '(rest', e) := list_remove rest x in (y :: rest', e)
  end.

(** [for x in _r: super().remove(x)] *)
Fixpoint remove_loop (self : list obj) (_r : list obj) : list obj * option error :=
  match _r with
  | [] => (self, None)
  | x :: rest =>
      match list_remove self x with
      | (self', None) => remove_loop self' rest
      | (self', Some e) => (self', Some e)
      end
  end.

(** [with suppress(ValueError): ...] *)
Definition suppress_ValueError (r : list obj * option error) : list obj * option error :=
  match r.2 with
  | Some ValueError => (r.1, None)
  | _ => r
  end.

Definition remove (self : list obj) (r : param) : list obj * option error :=
  match _check_param r with
  | inl e => (self, Some e)
  | inr _r => suppress_ValueError (remove_loop self (iterable _r))
  end.

Definition extend (self : list obj) (e : param) : list obj * option error :=
  match _check_param e with
  | inl err => (self, Some err)
  | inr _e => ((self ++ iterable _e)%list, None)
  end.

(** ** Properties of [TypedList] *)

Lemma check_items_spec (l : list obj) :
  match check_items l with
  | None => Forall (fun x => valid x = true) l
  | Some e =>
      ∃ l1 x l2, l = (l1 ++ x :: l2)%list ∧ Forall (fun x => valid x = true) l1 ∧
                 valid x = false ∧ e = TypeError x
  end.
Proof.
  induction l as [|y l IH]; cbn [check_items]; [constructor|].
  destruct (valid y) eqn:Hy.
  - destruct (check_items l) as [e|].
    + destruct IH as (l1 & x & l2 & -> & Hl1 & Hx & ->).
      exists (y :: l1), x, l2. split_and!; try done. by constructor.
    + by constructor.
  - exists [], y, l. split_and!; try done.
Qed.

Lemma check_items_valid (l : list obj) :
  Forall (fun x => valid x = true) l → check_items l = None.
Proof.
  induction 1 as [|y l Hy _ IH]; [done|]. cbn [check_items]. by rewrite Hy.
Qed.

Lemma list_remove_spec (self : list obj) (x : obj) :
  ((x ∉ self) ∧ list_remove self x = (self, Some ValueError)) ∨
  (∃ l1 l2, self = (l1 ++ x :: l2)%list ∧ (x ∉ l1) ∧
            list_remove self x = ((l1 ++ l2)%list, None)).
Proof.
  induction self as [|y self IH]; cbn [list_remove].
  - left. split; [apply not_elem_of_nil|done].
  - destruct (decide (y = x)) as [->|Hy].
    + right. exists [], self. split_and!; [done|apply not_elem_of_nil|done].
    + destruct IH as [[Hni ->]|(l1 & l2 & -> & Hni & ->)].
      * left. split; [|done]. rewrite not_elem_of_cons. by split; [congruence|].
      * right. exists (y :: l1), l2. split_and!; [done| |done].
        rewrite not_elem_of_cons. by split; [congruence|].
Qed.

Lemma remove_loop_spec (self _r : list obj) :
  sublist (remove_loop self _r).1 self ∧
  ((remove_loop self _r).2 = None ∨ (remove_loop self _r).2 = Some ValueError).
Proof.
  revert self. induction _r as [|x _r IH]; intros self; cbn [remove_loop].
  - split; [done|by left].
  - destruct (list_remove_spec self x) as [[Hni ->]|(l1 & l2 & -> & Hni & ->)].
    + split; [done|by right].
    + destruct (IH (l1 ++ l2)%list) as [Hs He]. split; [|done].
      etrans; [exact Hs|]. apply sublist_app; [done|]. by apply sublist_cons.
Qed.

Lemma iterable_iterated (p : param) :
  iterable (iterated p) = match p with Once _ => [] | _ => iterable p end.
Proof. by destruct p. Qed.

(** X24.  [extend] adds all the items or none.  It raises [TypeError] for
    the first item that is not of the valid type, and the list is then
    unchanged.  When every item is valid it appends what the parameter
    yields after the check: the items in order for one item or a
    collection, and nothing for an iterator, which the check has used up.
    So a list of valid items stays a list of valid items. *)
Theorem extend_all_or_nothing (self : list obj) (e : param) :
  match (extend self e).2 with
  | None =>
      Forall (fun x => valid x = true) (iterable e) ∧
      (extend self e).1 =
        match e with
        | Once _ => self
        | _ => (self ++ iterable e)%list
        end
  | Some err =>
      (extend self e).1 = self ∧
      ∃ l1 x l2, iterable e = (l1 ++ x :: l2)%list ∧
                 Forall (fun x => valid x = true) l1 ∧ valid x = false ∧
                 err = TypeError x
  end ∧
  (Forall (fun x => valid x = true) self →
   Forall (fun x => valid x = true) (extend self e).1).
Proof.
  unfold extend, _check_param. pose proof (check_items_spec (iterable e)) as Hc.
  destruct (check_items (iterable e)) as [err|]; cbn [fst snd].
  - done.
  - rewrite iterable_iterated. split.
    + split; [done|]. destruct e; [done|done|]. by rewrite List.app_nil_r.
    + intros Hs. apply Forall_app. split; [done|]. by destruct e.
Qed.

(** X25.  [remove] only removes, and never raises [ValueError]: what it
    leaves is a sublist of the list, so the order and the validity of the
    remaining items are kept.  It raises only [TypeError], for the first
    item of the parameter that is not of the valid type, and then the list
    is unchanged. *)
Theorem remove_only_removes (self : list obj) (r : param) :
  (remove self r).2 ≠ Some ValueError ∧
  sublist (remove self r).1 self ∧
  match (remove self r).2 with
  | None => Forall (fun x => valid x = true) (iterable r)
  | Some err =>
      (remove self r).1 = self ∧
      ∃ l1 x l2, iterable r = (l1 ++ x :: l2)%list ∧
                 Forall (fun x => valid x = true) l1 ∧ valid x = false ∧
                 err = TypeError x
  end.
Proof.
  unfold remove, _check_param. pose proof (check_items_spec (iterable r)) as Hc.
  destruct (check_items (iterable r)) as [err|]; cbn [fst snd].
  - destruct Hc as (l1 & x & l2 & E & Hl1 & Hx & ->).
    split_and!; [done|done|done|by exists l1, x, l2].
  - destruct (remove_loop_spec self (iterable (iterated r))) as [Hs He].
    unfold suppress_ValueError.
    destruct (remove_loop self (iterable (iterated r))) as [l' e']. cbn [fst snd] in *.
    destruct He as [->| ->]; cbn [fst snd]; by split_and!.
Qed.

(** X26.  [remove] stops at the first item that is not in the list: the
    [ValueError] of that item ends the loop before it is suppressed, so the
    items after it are not removed, whether they are in the list or not. *)
Theorem remove_stops_at_first_absent (self r1 r2 : list obj) (x : obj) :
  Forall (fun x => valid x = true) (r1 ++ x :: r2) →
  x ∉ self →
  remove self (Many (r1 ++ x :: r2)) = remove self (Many r1).
Proof.
  intros Hv Hx. unfold remove, _check_param. cbn [iterable iterated].
  rewrite (check_items_valid _ Hv).
  apply Forall_app in Hv as [Hv1 _]. rewrite (check_items_valid _ Hv1).
  cbn [iterable iterated]. clear Hv1. revert self Hx. induction r1 as [|y r1 IH]; intros self Hx.
  - cbn [app remove_loop].
    by destruct (list_remove_spec self x) as [[_ ->]|(l1 & l2 & -> & _ & _)];
      [|exfalso; apply Hx; rewrite elem_of_app, elem_of_cons; by right; left].
  - cbn [app remove_loop].
    destruct (list_remove_spec self y) as [[_ ->]|(l1 & l2 & -> & _ & ->)]; [done|].
    apply IH. intros Hin. apply Hx.
    rewrite elem_of_app, elem_of_cons. apply elem_of_app in Hin as [?|?]; auto.
Qed.






End TypedList.

(** The theorems at a list of integers among objects that are integers or
    strings. *)

Definition is_int (x : nat + string) : bool :=
  match x with inl _ => true | inr _ => false end.

Lemma remove_stops_at_first_absent_witness :
  Forall (fun x => is_int x = true) ([inl 2] ++ inl 9 :: [inl 1])%list ∧
  ((inl 9 : nat + string) ∉ [inl 1; inl 2; inl 3]) ∧
  remove is_int [inl 1; inl 2; inl 3] (Many ([inl 2] ++ inl 9 :: [inl 1])%list)
    = remove is_int [inl 1; inl 2; inl 3] (Many [inl 2]).
Proof.
  assert (Hv : Forall (fun x => is_int x = true) ([inl 2] ++ inl 9 :: [inl 1])%list)
    by (repeat constructor).
  assert (Hx : (inl 9 : nat + string) ∉ [inl 1; inl 2; inl 3])
    by (apply (bool_decide_unpack _); vm_compute; exact I).
  split; [exact Hv|]. split; [exact Hx|].
  exact (remove_stops_at_first_absent is_int [inl 1; inl 2; inl 3]
           [inl 2] [inl 1] (inl 9) Hv Hx).
Defined.



End TypedList.

(** * DefaultDict and Dispatcher

    Shallow embedding of [extended_containers/default_dict.py].  Values are
    objects other than [None]; [callable] is Python's [callable] and
    [call v args] is the result of calling [v] with the arguments, for
    callables that return.  A result of type [option V] is [None] for Python's [None]. *)

Module DefaultDict.

Section DefaultDict.

Context {V A : Type}.
Variable callable : V → bool.
Variable call : V → A → V.
Variable noargs : A.

Record t := mk {
  default : option V;
  exec : bool;
  data : gmap string V
}.

Definition __init__ (args : list (string * V)) (default : option V) (exec : bool) : t :=
  mk default exec (foldl (fun m kv => <[kv.1 := kv.2]> m) ∅ args).

(** [DefaultDict.__missing__] *)
Definition __missing__ (d : t) (key : string) : option V :=
  match default d with
  | Some f => if callable f && exec d then Some (call f noargs) else Some f
  | None => None
  end.

(** [Dispatcher.__init__] *)
Definition Dispatcher (default : option V) : t := __init__ [] default false.

(** [Dispatcher.__missing__] *)
Definition Dispatcher_missing (d : t) (key : string) : exn + option V :=
  match default d with
  | None => inl (KeyError "Dispatcher has no default")
  | Some _ => inr (__missing__ d key)
  end.

(** [self[key]] on a [Dispatcher] *)
Definition __getitem__ (d : t) (key : string) : exn + option V :=
  match data d !! key with
  | Some v => inr (Some v)
  | None => Dispatcher_missing d key
  end.

Definition __call__ (d : t) (key : string) (args : A) : exn + option V :=
  match __getitem__ d key with
  | inl e => inl e
  | inr (Some value) => inr (Some (if callable value then call value args else value))
  | inr None => inr None
  end.

Inductive keys :=
| Single (k : string)
| Many (ks : list string).     (* a tuple, list, set, filter, map or generator *)

Definition get_iter (values : keys) : list string :=
  match values with
  | Single k => [k]
  | Many ks => ks
  end.

(** [self |= dict.fromkeys(get_iter(keys), dispatch)] *)
Definition register (d : t) (values : keys) (dispatch : V) : t :=
  mk (default d) (exec d)
     (foldl (fun m k => <[k := dispatch]> m) (data d) (get_iter values)).

(** The dispatch registered last for [key]. *)
Definition registered (regs : list (keys * V)) (key : string) : option V :=
  foldl (fun acc r => if decide (key ∈ get_iter r.1) then Some r.2 else acc) None regs.

(** ** Properties of [Dispatcher] *)

Lemma lookup_fromkeys (m : gmap string V) (ks : list string) (f : V) (key : string) :
  foldl (fun m k => <[k := f]> m) m ks !! key =
    if decide (key ∈ ks) then Some f else m !! key.
Proof.
  induction ks as [|k ks IH] using rev_ind.
  - cbn. rewrite decide_False; [done|apply not_elem_of_nil].
  - rewrite foldl_app. cbn [foldl].
    destruct (decide (k = key)) as [->|Hk].
    + rewrite lookup_insert_eq. rewrite decide_True; [done|].
      rewrite elem_of_app, list_elem_of_singleton. by right.
    + rewrite lookup_insert_ne by done. rewrite IH.
      destruct (decide (key ∈ ks)) as [Hin|Hin].
      * rewrite decide_True; [done|]. rewrite elem_of_app. by left.
      * rewrite decide_False; [done|].
        rewrite elem_of_app, list_elem_of_singleton. intros [?|?]; [done|congruence].
Qed.

Lemma registers_meta (regs : list (keys * V)) (d : t) :
  default (foldl (fun d r => register d r.1 r.2) d regs) = default d ∧
  exec (foldl (fun d r => register d r.1 r.2) d regs) = exec d.
Proof.
  revert d. induction regs as [|r regs IH]; intros d; [done|].
  cbn [foldl]. by destruct (IH (register d r.1 r.2)) as [-> ->].
Qed.

Lemma registers_lookup (regs : list (keys * V)) (d : t) (key : string) :
  data (foldl (fun d r => register d r.1 r.2) d regs) !! key =
    match registered regs key with
    | Some f => Some f
    | None => data d !! key
    end.
Proof.
  induction regs as [|r regs IH] using rev_ind; [done|].
  unfold registered in *. rewrite !foldl_app. cbn [foldl].
  unfold register at 1; cbn [data]. rewrite lookup_fromkeys.
  by destruct (decide _).
Qed.

(** X28.  What a [Dispatcher] dispatches to.  For a dispatcher made by
    [Dispatcher(default)] and any sequence of [register] calls, calling it
    with a key applies the dispatch registered last for that key (the key
    itself, or a member of the tuple, list or set of keys); for a key never
    registered it applies the default, and raises
    [KeyError("Dispatcher has no default")] when there is none.  Applying
    calls a callable with the arguments and returns anything else as it
    is; the default is never called without arguments. *)
Theorem dispatcher_call (dflt : option V) (regs : list (keys * V))
    (key : string) (args : A) :
  __call__ (foldl (fun d r => register d r.1 r.2) (Dispatcher dflt) regs) key args =
    match registered regs key with
    | Some f => inr (Some (if callable f then call f args else f))
    | None =>
        match dflt with
        | Some f => inr (Some (if callable f then call f args else f))
        | None => inl (KeyError "Dispatcher has no default")
        end
    end.
Proof.
  unfold __call__, __getitem__. rewrite registers_lookup.
  destruct (registered regs key) as [f|]; [done|].
  unfold Dispatcher at 1, __init__ at 1; cbn [data foldl]. rewrite lookup_empty.
  unfold Dispatcher_missing, __missing__.
  destruct (registers_meta regs (Dispatcher dflt)) as [-> ->].
  cbn [Dispatcher __init__ default exec].
  destruct dflt as [f|]; [|done]. by rewrite andb_false_r.
Qed.

End DefaultDict.

End DefaultDict.
